(** * learn-chinese: the annotation pipeline of [js/api.js] and [server/app.js]

    A shallow embedding of the text annotation code: the client-side
    mock pipeline [mockProcessTextResponse] with its lookup tables, the
    client entry point [processText], and the server pipeline
    [processChineseText] with [checkIfChengyu] and the [/api/process]
    route.

    JavaScript strings are sequences of UTF-16 code units; [paragraph[i]],
    [indexOf], [includes], [substring], [split] and [trim] all work on
    code units, so a string is a [list N] here.  Numbers that can be [-1]
    (results of [indexOf]) are in [Z]; loop counters that range over
    [0 .. length-1] are in [nat]. *)

From Stdlib Require Import String Ascii.
From Stdlib Require Import List Bool Arith ZArith NArith Lia.
From Stdlib Require Import Permutation Sorted.
Import ListNotations.

(* ================================================================== *)
(** * JavaScript strings *)

Module JsString.

Definition code_unit := N.
Definition jsstring := list code_unit.

Definition unit_eqb (a b : code_unit) : bool := N.eqb a b.

Fixpoint str_eqb (a b : jsstring) : bool :=
  match a, b with
  | [], [] => true
  | x :: a', y :: b' => unit_eqb x y && str_eqb a' b'
  | _, _ => false
  end.

(** ** Literals

    Source literals are written as Rocq strings (UTF-8 bytes) and decoded
    to the UTF-16 code units the JavaScript engine holds. *)

Fixpoint utf16_of_utf8 (bs : list N) : jsstring :=
  match bs with
  | [] => []
  | b0 :: r0 =>
    if (b0 <? 128)%N then b0 :: utf16_of_utf8 r0
    else
      match r0 with
      | [] => []
      | b1 :: r1 =>
        if (b0 <? 224)%N then
          N.lor (N.shiftl (N.land b0 31) 6) (N.land b1 63) :: utf16_of_utf8 r1
        else
          match r1 with
          | [] => []
          | b2 :: r2 =>
            if (b0 <? 240)%N then
              N.lor (N.shiftl (N.land b0 15) 12)
                    (N.lor (N.shiftl (N.land b1 63) 6) (N.land b2 63))
              :: utf16_of_utf8 r2
            else
              match r2 with
              | [] => []
              | b3 :: r3 =>
                let cp :=
                  N.lor (N.shiftl (N.land b0 7) 18)
                        (N.lor (N.shiftl (N.land b1 63) 12)
                               (N.lor (N.shiftl (N.land b2 63) 6) (N.land b3 63))) in
                let v := (cp - 65536)%N in
                (55296 + N.shiftr v 10)%N :: (56320 + N.land v 1023)%N
                :: utf16_of_utf8 r3
              end
          end
      end
  end.

Definition js (s : string) : jsstring :=
  utf16_of_utf8 (map (fun a => N_of_ascii a) (list_ascii_of_string s)).

(** ** [String.prototype.indexOf] and [includes] *)

(** [starts_with needle s]: [needle] occurs in [s] at offset 0. *)
Fixpoint starts_with (needle s : jsstring) : bool :=
  match needle, s with
  | [], _ => true
  | _ :: _, [] => false
  | x :: needle', y :: s' => unit_eqb x y && starts_with needle' s'
  end.

(** [search needle s k]: the first offset at which [needle] occurs in
    [s], counted from [k] (the offset of [s] in the whole string). *)
Fixpoint search (needle s : jsstring) (k : nat) : option nat :=
  if starts_with needle s then Some k
  else match s with
       | [] => None
       | _ :: s' => search needle s' (S k)
       end.

(** [s.indexOf(needle, position)]: [position] is clamped to
    [0 .. s.length]; the result is [-1] when there is no occurrence. *)
Definition indexOf (s needle : jsstring) (position : Z) : Z :=
  let len := Z.of_nat (length s) in
  let start := Z.to_nat (Z.min (Z.max position 0) len) in
  match search needle (skipn start s) start with
  | Some k => Z.of_nat k
  | None => (-1)%Z
  end.

(** [s.includes(needle)] *)
Definition includes (s needle : jsstring) : bool :=
  negb (indexOf s needle 0 =? -1)%Z.

(** [s.substring(from, to)] for [0 <= from <= to]; [to] is clamped to
    the length. *)
Definition substring (s : jsstring) (from to : nat) : jsstring :=
  firstn (to - from) (skipn from s).

(** [s[i]]: the one-unit string at index [i].  Every index the pipeline
    uses is inside the string; outside, JavaScript yields [undefined],
    which has no counterpart here and is rendered as the empty string. *)
Definition at_index (s : jsstring) (i : nat) : jsstring :=
  match nth_error s i with
  | Some c => [c]
  | None => []
  end.

(** ** [String.prototype.trim] *)

(** WhiteSpace and LineTerminator code points of ECMAScript. *)
Definition is_white_space (c : code_unit) : bool :=
  existsb (N.eqb c)
    [9; 10; 11; 12; 13; 32; 160; 5760; 8232; 8233; 8239; 8287; 12288; 65279]%N
  || ((8192 <=? c) && (c <=? 8202))%N.

Fixpoint trim_start (s : jsstring) : jsstring :=
  match s with
  | [] => []
  | c :: s' => if is_white_space c then trim_start s' else s
  end.

Definition trim_end (s : jsstring) : jsstring := rev (trim_start (rev s)).

Definition trim (s : jsstring) : jsstring := trim_end (trim_start s).

(** ** [String.prototype.split] with the pattern [/\n+/]

    The pieces between maximal runs of U+000A.  A run at the very start
    or end of the string leaves an empty piece there, and the empty
    string splits into one empty piece. *)

Definition is_newline (c : code_unit) : bool := N.eqb c 10.

Fixpoint split_piece (cur s : jsstring) : list jsstring :=
  match s with
  | [] => [cur]
  | c :: s' =>
    if is_newline c then cur :: split_run s' else split_piece (cur ++ [c]) s'
  end
with split_run (s : jsstring) : list jsstring :=
  match s with
  | [] => [[]]
  | c :: s' =>
    if is_newline c then split_run s' else split_piece [c] s'
  end.

Definition split_newlines (s : jsstring) : list jsstring := split_piece [] s.

End JsString.
Import JsString.

(* ================================================================== *)
(** * Outcomes of a call

    A call returns, throws (a rejected promise is a throw at its
    [await]), or does not return: the only unbounded loop is the
    [while] of the idiom scan, run here on fuel. *)

Inductive completion (A : Type) : Type :=
| Normal (value : A)
| Throw (message : jsstring)
| Diverge.

Arguments Normal {A} value.
Arguments Throw {A} message.
Arguments Diverge {A}.

Definition bind {A B} (c : completion A) (k : A -> completion B) : completion B :=
  match c with
  | Normal a => k a
  | Throw e => Throw e
  | Diverge => Diverge
  end.

Notation "x <- c ;; k" := (bind c (fun x => k))
  (at level 61, c at next level, right associativity).

(** [try { body } catch (error) { handler }] *)
Definition try_catch {A} (body : completion A) (handler : jsstring -> completion A)
  : completion A :=
  match body with
  | Normal a => Normal a
  | Throw e => handler e
  | Diverge => Diverge
  end.

(** [array.map(f)] for an [f] that may not return. *)
Fixpoint map_each {A B} (f : A -> completion B) (l : list A) : completion (list B) :=
  match l with
  | [] => Normal []
  | x :: l' => y <- f x ;; ys <- map_each f l' ;; Normal (y :: ys)
  end.

(* ================================================================== *)
(** * The result objects *)

(** The [chengyuComplete] property: missing on plain segments and on the
    server's segments, [null] or the idiom on the mock's idiom segments. *)
Inductive chengyu_field : Type :=
| FieldAbsent
| FieldNull
| FieldIdiom (cy : jsstring).

Record charInfo : Type := {
  text : jsstring;
  pinyin : jsstring;
  translation : jsstring;
  isChengyu : bool;
  chengyuComplete : chengyu_field
}.

(** [{ text: paragraph, segments }] *)
Record paragraphInfo : Type := {
  paragraph_text : jsstring;
  segments : list charInfo
}.

(** [{ original: text, paragraphs }] *)
Record processed : Type := {
  original : jsstring;
  paragraphs : list paragraphInfo
}.

(** Object literals used as lookup tables; a later duplicate key would
    override an earlier one. *)
Definition js_object := list (jsstring * jsstring).

Fixpoint obj_get (obj : js_object) (key : jsstring) : option jsstring :=
  match obj with
  | [] => None
  | (k, v) :: rest =>
    match obj_get rest key with
    | Some v' => Some v'
    | None => if str_eqb k key then Some v else None
    end
  end.

(** The table without its entry for [key]: a lookup of [key] fails. *)
Definition remove_entry (obj : js_object) (key : jsstring) : js_object :=
  filter (fun entry => negb (str_eqb (fst entry) key)) obj.

(** [value || fallback] on a table lookup: a missing entry and the empty
    string are both falsy. *)
Definition or_default (value : option jsstring) (fallback : jsstring) : jsstring :=
  match value with
  | Some (c :: v) => c :: v
  | _ => fallback
  end.

(** [text.split(/\n+/).filter(p => p.trim().length > 0)], the first
    statement of both pipelines. *)
Definition split_paragraphs (text : jsstring) : list jsstring :=
  filter (fun p => 0 <? length (trim p)) (split_newlines text).

(** [Array.prototype.sort(compare)].  The sort is stable (ECMAScript
    2019), and the one comparison function of the source orders by a
    key, so the result is the stably sorted array; it is built here by
    insertion, an element passing another only when [compare] is
    positive for the pair. *)
Fixpoint sort_insert {A} (compare : A -> A -> Z) (x : A) (l : list A) : list A :=
  match l with
  | [] => [x]
  | y :: l' =>
    if (compare x y <=? 0)%Z then x :: l else y :: sort_insert compare x l'
  end.

Fixpoint array_sort {A} (compare : A -> A -> Z) (l : list A) : list A :=
  match l with
  | [] => []
  | x :: l' => sort_insert compare x (array_sort compare l')
  end.

(* ================================================================== *)
(** * [js/api.js]: the mock pipeline *)

Section Mock.

(** The idiom list and the two lookup functions of the source, as
    parameters. *)
Variable sampleChengyu : list jsstring.
Variables getMockPinyin getMockTranslation : jsstring -> jsstring.

(** The [while (index !== -1)] loop that fills [indices]. *)
Fixpoint collect_indices (fuel : nat) (paragraph cy : jsstring)
         (index : Z) (indices : list Z) : completion (list Z) :=
  match fuel with
  | O => Diverge
  | S fuel' =>
    if (index =? -1)%Z then Normal indices
    else collect_indices fuel' paragraph cy
           (indexOf paragraph cy (index + 1)) (indices ++ [index])
  end.

(** The object pushed at step [i] of the inner [for] loop. *)
Definition chengyuInfo (paragraph cy : jsstring) (startIdx : Z) (i : nat) : charInfo :=
  let char := at_index paragraph (Z.to_nat (startIdx + Z.of_nat i)) in
  {| text := char;
     pinyin := getMockPinyin char;
     translation := getMockTranslation char;
     isChengyu := true;
     chengyuComplete := if i =? length cy - 1 then FieldIdiom cy else FieldNull |}.

(** [for (let i = 0; i < cy.length; i++) segments.push(charInfo)] *)
Definition mark_chengyu (paragraph cy : jsstring) (segments : list charInfo)
           (startIdx : Z) : list charInfo :=
  fold_left (fun segs i => segs ++ [chengyuInfo paragraph cy startIdx i])
            (seq 0 (length cy)) segments.

(** [sampleChengyu.forEach(cy => ...)].  The fuel covers one turn of the
    [while] loop per index of the paragraph and the last test; a loop
    that has not left by then never does ([collect_indices_all],
    [empty_idiom_never_ends]). *)
Fixpoint scan_chengyu (catalog : list jsstring) (paragraph : jsstring)
         (segments : list charInfo) : completion (list charInfo) :=
  match catalog with
  | [] => Normal segments
  | cy :: rest =>
    if includes paragraph cy then
      indices <- collect_indices (length paragraph + 2) paragraph cy
                   (indexOf paragraph cy 0) [] ;;
      scan_chengyu rest paragraph
        (fold_left (mark_chengyu paragraph cy) indices segments)
    else scan_chengyu rest paragraph segments
  end.

(** The object pushed by the second loop. *)
Definition plainInfo (paragraph : jsstring) (i : nat) : charInfo :=
  let char := at_index paragraph i in
  {| text := char;
     pinyin := getMockPinyin char;
     translation := getMockTranslation char;
     isChengyu := false;
     chengyuComplete := FieldAbsent |}.

(** [segments.some(s => s.text === paragraph[i] && s.isChengyu)] *)
Definition already_chengyu (segments : list charInfo) (char : jsstring) : bool :=
  existsb (fun s => str_eqb (text s) char && isChengyu s) segments.

(** One turn of [for (let i = 0; i < paragraph.length; i++)]. *)
Definition plain_step (paragraph : jsstring) (segments : list charInfo) (i : nat)
  : list charInfo :=
  if already_chengyu segments (at_index paragraph i) then segments
  else segments ++ [plainInfo paragraph i].

Definition remaining_characters (paragraph : jsstring) (segments : list charInfo)
  : list charInfo :=
  fold_left (plain_step paragraph) (seq 0 (length paragraph)) segments.

(** [(a, b) => paragraph.indexOf(a.text) - paragraph.indexOf(b.text)] *)
Definition compare_segments (paragraph : jsstring) (a b : charInfo) : Z :=
  (indexOf paragraph (text a) 0 - indexOf paragraph (text b) 0)%Z.

(** The segments as they stand before the final sort. *)
Definition collect_segments (paragraph : jsstring) : completion (list charInfo) :=
  segs <- scan_chengyu sampleChengyu paragraph [] ;;
  Normal (remaining_characters paragraph segs).

(** The callback of [paragraphs.map]. *)
Definition mock_paragraph (paragraph : jsstring) : completion paragraphInfo :=
  segs <- collect_segments paragraph ;;
  Normal {| paragraph_text := paragraph;
            segments := array_sort (compare_segments paragraph) segs |}.

Definition mockProcessTextResponse_in (text : jsstring) : completion processed :=
  processedParagraphs <- map_each mock_paragraph (split_paragraphs text) ;;
  Normal {| original := text; paragraphs := processedParagraphs |}.

End Mock.

(** The constants as [js/api.js] declares them. *)

Definition sampleChengyu : list jsstring :=
  [ js "一心一意"; js "不可思议"; js "入乡随俗"; js "自言自语";
    js "四面八方"; js "千变万化"; js "无忧无虑"; js "不知不觉" ].

Definition mockPinyinMap : js_object :=
  [ (js "我", js "wǒ"); (js "你", js "nǐ"); (js "他", js "tā"); (js "她", js "tā");
    (js "们", js "men"); (js "好", js "hǎo"); (js "一", js "yī"); (js "二", js "èr");
    (js "三", js "sān"); (js "中", js "zhōng"); (js "国", js "guó"); (js "人", js "rén");
    (js "大", js "dà"); (js "小", js "xiǎo"); (js "上", js "shàng"); (js "下", js "xià");
    (js "不", js "bù"); (js "是", js "shì"); (js "了", js "le") ].

Definition mockTranslationMap : js_object :=
  [ (js "我", js "I/me"); (js "你", js "you"); (js "他", js "he"); (js "她", js "she");
    (js "们", js "plural marker"); (js "好", js "good"); (js "一", js "one");
    (js "二", js "two"); (js "三", js "three"); (js "中", js "middle");
    (js "国", js "country"); (js "人", js "person"); (js "大", js "big");
    (js "小", js "small"); (js "上", js "up/above"); (js "下", js "down/below");
    (js "不", js "no/not"); (js "是", js "is/am/are"); (js "了", js "past tense marker") ].

(** [mockPinyinMap[char] || 'pinyin'], for any table. *)
Definition getMockPinyin_in (mockPinyinMap : js_object) (char : jsstring) : jsstring :=
  or_default (obj_get mockPinyinMap char) (js "pinyin").

Definition getMockTranslation_in (mockTranslationMap : js_object) (char : jsstring)
  : jsstring :=
  or_default (obj_get mockTranslationMap char) (js "translation").

Definition getMockPinyin : jsstring -> jsstring := getMockPinyin_in mockPinyinMap.

Definition getMockTranslation : jsstring -> jsstring :=
  getMockTranslation_in mockTranslationMap.

Definition mockProcessTextResponse : jsstring -> completion processed :=
  mockProcessTextResponse_in sampleChengyu getMockPinyin getMockTranslation.

(* ================================================================== *)
(** * [js/api.js]: [processText] *)

(** What [response.json()] settles to. *)
Inductive json_result : Type :=
| JsonParsed (data : processed)
| JsonRejects (reason : jsstring).

(** What [await fetch('/api/process', ...)] settles to. *)
Inductive fetch_result : Type :=
| FetchRejects (reason : jsstring)
| FetchResponse (ok : bool) (json : json_result).

Definition processText (fetch : jsstring -> fetch_result) (text : jsstring)
  : completion processed :=
  try_catch
    (match fetch text with
     | FetchRejects reason => Throw reason
     | FetchResponse ok json =>
       if negb ok then Throw (js "Network response was not ok")
       else match json with
            | JsonParsed data => Normal data
            | JsonRejects reason => Throw reason
            end
     end)
    (fun error => mockProcessTextResponse text).

(* ================================================================== *)
(** * [server/app.js] *)

Module Server.

Definition sampleChengyu : list jsstring :=
  [ js "一心一意"; js "不可思议"; js "入乡随俗"; js "自言自语";
    js "四面八方"; js "千变万化"; js "无忧无虑"; js "不知不觉" ].

Definition getPinyin (text : jsstring) : completion jsstring :=
  try_catch (Normal (js "pīnyīn")) (fun error => Normal (js "pīnyīn")).

Definition getTranslation (text : jsstring) : completion jsstring :=
  try_catch (Normal (js "translation")) (fun error => Normal (js "translation")).

(** [for (const chengyu of sampleChengyu)] with its early [return true]. *)
Fixpoint chengyu_starts_at (catalog : list jsstring) (text : jsstring) (position : nat)
  : bool :=
  match catalog with
  | [] => false
  | chengyu :: rest =>
    if position + length chengyu <=? length text then
      if str_eqb (substring text position (position + length chengyu)) chengyu
      then true
      else chengyu_starts_at rest text position
    else chengyu_starts_at rest text position
  end.

Definition checkIfChengyu (text : jsstring) (position : nat) : completion bool :=
  Normal (chengyu_starts_at sampleChengyu text position).

(** One turn of [for (let i = 0; i < paragraph.length; i++)]. *)
Definition process_char (paragraph : jsstring) (segments : list charInfo) (i : nat)
  : completion (list charInfo) :=
  let char := at_index paragraph i in
  pinyin <- getPinyin char ;;
  translation <- getTranslation char ;;
  isChengyu <- checkIfChengyu paragraph i ;;
  Normal (segments ++ [ {| text := char; pinyin := pinyin; translation := translation;
                           isChengyu := isChengyu; chengyuComplete := FieldAbsent |} ]).

Fixpoint for_each_index (step : list charInfo -> nat -> completion (list charInfo))
         (indices : list nat) (segments : list charInfo) : completion (list charInfo) :=
  match indices with
  | [] => Normal segments
  | i :: rest => segs <- step segments i ;; for_each_index step rest segs
  end.

Definition process_paragraph (paragraph : jsstring) : completion paragraphInfo :=
  segs <- for_each_index (process_char paragraph) (seq 0 (length paragraph)) [] ;;
  Normal {| paragraph_text := paragraph; segments := segs |}.

Definition processChineseText (text : jsstring) : completion processed :=
  processedParagraphs <- map_each process_paragraph (split_paragraphs text) ;;
  Normal {| original := text; paragraphs := processedParagraphs |}.

(** [req.body.text]: missing, a string, or some other JSON value, of
    which only its truthiness matters before [text.split] is called. *)
Inductive body_text : Type :=
| TextMissing
| TextString (s : jsstring)
| TextOther (truthy : bool).

Inductive response_body : Type :=
| Data (d : processed)
| Error (message : jsstring).

Record response : Type := { status : Z; body : response_body }.

(** The handler of [app.post('/api/process', ...)]. *)
Definition api_process (text : body_text) : completion response :=
  try_catch
    (match text with
     | TextMissing => Normal {| status := 400; body := Error (js "No text provided") |}
     | TextString s =>
       if length s =? 0
       then Normal {| status := 400; body := Error (js "No text provided") |}
       else processedData <- processChineseText s ;;
            Normal {| status := 200; body := Data processedData |}
     | TextOther truthy =>
       if truthy then Throw (js "text.split is not a function")
       else Normal {| status := 400; body := Error (js "No text provided") |}
     end)
    (fun error => Normal {| status := 500; body := Error (js "Error processing text") |}).

End Server.


(* ================================================================== *)
(** * The mock pipeline against a provider with state

    The same loops as [mockProcessTextResponse], with the two lookups
    answered by a lexicon provider that carries state of its own (a
    cache, a remote service): each lookup takes the provider's state and
    hands back the next one, in the order the source evaluates them. *)

Section Provider.

Variable World : Type.
Variable sampleChengyu : list jsstring.
Variables lookupPinyin lookupTranslation : jsstring -> World -> jsstring * World.

Definition chengyuInfo_st (paragraph cy : jsstring) (startIdx : Z) (i : nat)
           (w : World) : charInfo * World :=
  let char := at_index paragraph (Z.to_nat (startIdx + Z.of_nat i)) in
  let (py, w1) := lookupPinyin char w in
  let (tr, w2) := lookupTranslation char w1 in
  ({| text := char; pinyin := py; translation := tr; isChengyu := true;
      chengyuComplete := if i =? length cy - 1 then FieldIdiom cy else FieldNull |},
   w2).

Definition plainInfo_st (paragraph : jsstring) (i : nat) (w : World)
  : charInfo * World :=
  let char := at_index paragraph i in
  let (py, w1) := lookupPinyin char w in
  let (tr, w2) := lookupTranslation char w1 in
  ({| text := char; pinyin := py; translation := tr; isChengyu := false;
      chengyuComplete := FieldAbsent |},
   w2).

(** A loop over [l] that threads both the loop's own state and the
    provider's. *)
Fixpoint for_each_st {X S : Type} (step : S -> X -> World -> S * World)
         (l : list X) (s : S) (w : World) : S * World :=
  match l with
  | [] => (s, w)
  | x :: l' => let (s', w') := step s x w in for_each_st step l' s' w'
  end.

Definition push_st {X : Type} (make : X -> World -> charInfo * World)
           (segs : list charInfo) (x : X) (w : World) : list charInfo * World :=
  let (info, w') := make x w in (segs ++ [info], w').

Definition mark_chengyu_st (paragraph cy : jsstring) (segs : list charInfo)
           (startIdx : Z) (w : World) : list charInfo * World :=
  for_each_st (push_st (chengyuInfo_st paragraph cy startIdx))
              (seq 0 (length cy)) segs w.

Fixpoint scan_chengyu_st (catalog : list jsstring) (paragraph : jsstring)
         (segs : list charInfo) (w : World) : completion (list charInfo * World) :=
  match catalog with
  | [] => Normal (segs, w)
  | cy :: rest =>
    if includes paragraph cy then
      indices <- collect_indices (length paragraph + 2) paragraph cy
                   (indexOf paragraph cy 0) [] ;;
      let (segs', w') := for_each_st (mark_chengyu_st paragraph cy) indices segs w in
      scan_chengyu_st rest paragraph segs' w'
    else scan_chengyu_st rest paragraph segs w
  end.

Definition plain_step_st (paragraph : jsstring) (segs : list charInfo) (i : nat)
           (w : World) : list charInfo * World :=
  if already_chengyu segs (at_index paragraph i) then (segs, w)
  else push_st (plainInfo_st paragraph) segs i w.

Definition mock_paragraph_st (paragraph : jsstring) (w : World)
  : completion (paragraphInfo * World) :=
  sw <- scan_chengyu_st sampleChengyu paragraph [] w ;;
  let (segs, w') :=
    for_each_st (plain_step_st paragraph) (seq 0 (length paragraph)) (fst sw) (snd sw) in
  Normal ({| paragraph_text := paragraph;
             segments := array_sort (compare_segments paragraph) segs |}, w').

Fixpoint map_each_st {A B : Type} (f : A -> World -> completion (B * World))
         (l : list A) (w : World) : completion (list B * World) :=
  match l with
  | [] => Normal ([], w)
  | x :: l' =>
    yw <- f x w ;;
    ysw <- map_each_st f l' (snd yw) ;;
    Normal (fst yw :: fst ysw, snd ysw)
  end.

Definition mockProcessTextResponse_st (text : jsstring) (w : World)
  : completion (processed * World) :=
  pw <- map_each_st mock_paragraph_st (split_paragraphs text) w ;;
  Normal ({| original := text; paragraphs := fst pw |}, snd pw).

End Provider.

Arguments chengyuInfo_st {World}.
Arguments plainInfo_st {World}.
Arguments for_each_st {World X S}.
Arguments push_st {World X}.
Arguments mark_chengyu_st {World}.
Arguments scan_chengyu_st {World}.
Arguments plain_step_st {World}.
Arguments mock_paragraph_st {World}.
Arguments map_each_st {World A B}.
Arguments mockProcessTextResponse_st {World}.

(** The value of a run, the provider's final state dropped. *)
Definition value_of {A W : Type} (c : completion (A * W)) : completion A :=
  x <- c ;; Normal (fst x).

(** A provider that counts the lookups it has served. *)
Definition counting (f : jsstring -> jsstring) (char : jsstring) (served : nat)
  : jsstring * nat :=
  (f char, S served).

(* ================================================================== *)
(** * Idiom spans *)

(** A marked occurrence of an idiom: [cy] and one entry of its
    [indices]; the span covers [length idiom] units from [startIndex]. *)
Record IdiomSpan : Type := { idiom : jsstring; startIndex : Z }.

Definition span_end (s : IdiomSpan) : Z := (startIndex s + Z.of_nat (length (idiom s)))%Z.

Definition overlaps (a b : IdiomSpan) : bool :=
  ((startIndex a <? span_end b) && (startIndex b <? span_end a))%Z.

(** The paragraph indices a span covers, in the order the inner loop
    reads them. *)
Definition span_positions (s : IdiomSpan) : list Z :=
  map (fun i => (startIndex s + Z.of_nat i)%Z) (seq 0 (length (idiom s))).

(** The spans the idiom scan of the mock marks: for each [cy] of the
    list that the paragraph includes, every entry of [indices]. *)
Fixpoint marked_spans (catalog : list jsstring) (paragraph : jsstring)
         (spans : list IdiomSpan) : completion (list IdiomSpan) :=
  match catalog with
  | [] => Normal spans
  | cy :: rest =>
    if includes paragraph cy then
      indices <- collect_indices (length paragraph + 2) paragraph cy
                   (indexOf paragraph cy 0) [] ;;
      marked_spans rest paragraph
        (spans ++ map (fun startIdx => {| idiom := cy; startIndex := startIdx |}) indices)
    else marked_spans rest paragraph spans
  end.

(** The paragraph indices whose character the second loop pushes, given
    the segments of the idiom scan. *)
Definition plain_positions (paragraph : jsstring) (segs : list charInfo) : list nat :=
  filter (fun i => negb (already_chengyu segs (at_index paragraph i)))
         (seq 0 (length paragraph)).

(** Catalogs whose occurrences can never share a character: no
    duplicate and no empty entry, and no entry, cut at any offset, that
    agrees with another entry (or with itself at an offset other than
    0) as far as both go. *)
Definition agree (x y : jsstring) : bool := starts_with x y || starts_with y x.

Fixpoint distinct (l : list jsstring) : bool :=
  match l with
  | [] => true
  | x :: l' => negb (existsb (str_eqb x) l') && distinct l'
  end.

Definition clash_free (catalog : list jsstring) : bool :=
  forallb (fun a =>
    forallb (fun b =>
      forallb (fun d => ((d =? 0) && str_eqb a b) || negb (agree (skipn d a) b))
              (seq 0 (length a)))
      catalog)
    catalog.

Definition separated (catalog : list jsstring) : bool :=
  distinct catalog && forallb (fun cy => 0 <? length cy) catalog && clash_free catalog.

(* ------------------------------------------------------------------ *)
(** ** The matcher as the specification words it

    Every occurrence of every catalog entry is a candidate; candidates
    are sorted by start index ascending, then by length descending, and
    accepted left to right unless they overlap an accepted span. *)

Module Spec.

(** The start indices, from [from] on, at which [entry] occurs. *)
Definition occurrences_from (paragraphText entry : jsstring) (from : nat) : list nat :=
  filter (fun k => starts_with entry (skipn k paragraphText))
         (seq from (length paragraphText - from)).

Definition occurrences (paragraphText entry : jsstring) : list nat :=
  occurrences_from paragraphText entry 0.

Definition candidates (paragraphText : jsstring) (catalog : list jsstring)
  : list IdiomSpan :=
  flat_map (fun entry =>
              map (fun k => {| idiom := entry; startIndex := Z.of_nat k |})
                  (occurrences paragraphText entry))
           catalog.

Definition compare_candidates (a b : IdiomSpan) : Z :=
  if (startIndex a =? startIndex b)%Z
  then (Z.of_nat (length (idiom b)) - Z.of_nat (length (idiom a)))%Z
  else (startIndex a - startIndex b)%Z.

Fixpoint accept (accepted candidates : list IdiomSpan) : list IdiomSpan :=
  match candidates with
  | [] => accepted
  | c :: rest =>
    if existsb (overlaps c) accepted then accept accepted rest
    else accept (accepted ++ [c]) rest
  end.

Definition findSpans (paragraphText : jsstring) (catalog : list jsstring)
  : list IdiomSpan :=
  accept [] (array_sort compare_candidates (candidates paragraphText catalog)).

End Spec.

(* ------------------------------------------------------------------ *)
(** ** Rebuilding a text from its pieces *)

(** [weave pieces runs]: the pieces with the newline runs put back
    between them. *)
Fixpoint weave (pieces runs : list jsstring) : jsstring :=
  match pieces, runs with
  | p :: pieces', r :: runs' => p ++ r ++ weave pieces' runs'
  | p :: _, [] => p
  | [], _ => []
  end.

Definition newline_run (r : jsstring) : Prop :=
  r <> [] /\ Forall (fun c => is_newline c = true) r.

Definition blank (s : jsstring) : Prop := Forall (fun c => is_white_space c = true) s.

(* ------------------------------------------------------------------ *)
(** ** What the loops of the mock push, span by span and index by index *)

Section MockTrace.

Variables getMockPinyin getMockTranslation : jsstring -> jsstring.

(** The segments one marked span contributes. *)
Definition span_segments (paragraph : jsstring) (s : IdiomSpan) : list charInfo :=
  map (chengyuInfo getMockPinyin getMockTranslation paragraph (idiom s) (startIndex s))
      (seq 0 (length (idiom s))).

(** The segments the idiom scan leaves, the segments before the sort
    and the paragraph object, written without the loops. *)
Definition idiom_segments (catalog : list jsstring) (paragraph : jsstring)
  : list charInfo :=
  flat_map (span_segments paragraph) (Spec.candidates paragraph catalog).

Definition unsorted_segments (catalog : list jsstring) (paragraph : jsstring)
  : list charInfo :=
  idiom_segments catalog paragraph
    ++ map (plainInfo getMockPinyin getMockTranslation paragraph)
           (plain_positions paragraph (idiom_segments catalog paragraph)).

(** The paragraph index each of those segments takes its character
    from, in the same order. *)
Definition read_positions (catalog : list jsstring) (paragraph : jsstring) : list Z :=
  flat_map span_positions (Spec.candidates paragraph catalog)
    ++ map Z.of_nat (plain_positions paragraph (idiom_segments catalog paragraph)).

Definition annotated_paragraph (catalog : list jsstring) (paragraph : jsstring)
  : paragraphInfo :=
  {| paragraph_text := paragraph;
     segments := array_sort (compare_segments paragraph)
                            (unsorted_segments catalog paragraph) |}.

End MockTrace.

(** The segment the server pushes for index [i]. *)
Definition server_segment (paragraph : jsstring) (i : nat) : charInfo :=
  {| text := at_index paragraph i;
     pinyin := js "pīnyīn";
     translation := js "translation";
     isChengyu := Server.chengyu_starts_at Server.sampleChengyu paragraph i;
     chengyuComplete := FieldAbsent |}.

(** How a segment [s'] of a run in which the lookups of [char] fail
    relates to the segment [s] of the run in which they do not: the same
    text and idiom marks; the placeholders for pinyin and translation
    when its text is [char], the same pinyin and translation otherwise. *)
Definition falls_back_only_at (char : jsstring) (s s' : charInfo) : Prop :=
  text s' = text s /\
  isChengyu s' = isChengyu s /\
  chengyuComplete s' = chengyuComplete s /\
  if str_eqb (text s) char
  then pinyin s' = js "pinyin" /\ translation s' = js "translation"
  else pinyin s' = pinyin s /\ translation s' = translation s.

(** The text a paragraph's segments spell, in output order. *)
Definition joined (p : paragraphInfo) : jsstring := concat (map text (segments p)).

(** What every segment of a paragraph of the mock satisfies: its text
    is one code unit of the paragraph, its pinyin and translation are
    the lookups of that text and are not empty, the [chengyuComplete]
    property is there exactly on idiom segments, and a completed idiom
    is an idiom of the list that ends with the segment's text. *)
Definition mock_segment_ok (paragraph : jsstring) (s : charInfo) : Prop :=
  (exists c, In c paragraph /\ text s = [c]) /\
  pinyin s = getMockPinyin (text s) /\
  translation s = getMockTranslation (text s) /\
  pinyin s <> [] /\ translation s <> [] /\
  (isChengyu s = false <-> chengyuComplete s = FieldAbsent) /\
  (forall cy, chengyuComplete s = FieldIdiom cy ->
              isChengyu s = true /\ In cy sampleChengyu /\
              exists front, cy = front ++ text s).

(** The segments that carry a completed idiom. *)
Definition has_idiom (s : charInfo) : bool :=
  match chengyuComplete s with
  | FieldIdiom _ => true
  | _ => false
  end.

(* ================================================================== *)
(** * [js/api.js]: the page script *)

(** ** The process button

    [const chineseText = chineseTextArea.value.trim();] then the call of
    [processChineseText] when the string is truthy, the alert otherwise. *)
Inductive click_outcome : Type :=
| Processes (chineseText : jsstring)
| Alerts (message : jsstring).

Definition process_click (value : jsstring) : click_outcome :=
  match trim value with
  | c :: rest => Processes (c :: rest)
  | [] => Alerts (js "Please enter or upload Chinese text first.")
  end.

(** ** The document tree *)

Inductive node : Type :=
| TextNode (data : jsstring)
| Element (tagName : jsstring) (classList : list jsstring) (childNodes : list node).

(** [classList.contains], [classList.add] and [classList.remove] *)
Definition class_contains (name : jsstring) (classes : list jsstring) : bool :=
  existsb (str_eqb name) classes.

Definition class_add (name : jsstring) (classes : list jsstring) : list jsstring :=
  if class_contains name classes then classes else classes ++ [name].

Definition class_remove (name : jsstring) (classes : list jsstring) : list jsstring :=
  filter (fun c => negb (str_eqb name c)) classes.

(** The children [element.textContent = s] leaves: one text node, none
    for the empty string. *)
Definition text_content (s : jsstring) : list node :=
  match s with
  | [] => []
  | _ :: _ => [TextNode s]
  end.

(** The [span] made for [segment.pinyin] or [segment.translation] when
    the string is truthy. *)
Definition annotation_span (className value : jsstring) : list node :=
  match value with
  | [] => []
  | _ :: _ => [Element (js "span") [className] (text_content value)]
  end.

(** The body of [paragraph.segments.forEach]: the element appended to
    the paragraph's [div]. *)
Definition render_segment (highlightChecked : bool) (segment : charInfo) : node :=
  Element (js "span")
          (if isChengyu segment && highlightChecked
           then class_add (js "chengyu") [js "chinese-char"]
           else [js "chinese-char"])
          (text_content (text segment)
             ++ annotation_span (js "pinyin") (pinyin segment)
             ++ annotation_span (js "translation") (translation segment)).

Definition render_paragraph (highlightChecked : bool) (paragraph : paragraphInfo) : node :=
  Element (js "div") [js "paragraph"]
          (map (render_segment highlightChecked) (segments paragraph)).

(** [renderProcessedText(data)]: the children of [readingContent] after
    the call, given the state of the [highlight-chengyu] box. *)
Definition renderProcessedText (highlightChecked : bool) (data : processed) : list node :=
  map (render_paragraph highlightChecked) (paragraphs data).

(** The [change] handler of the [highlight-chengyu] box, over a tree:
    every element that [querySelectorAll('.chengyu')] selects gets the
    class added when the box is checked and removed when it is not. *)
Fixpoint toggle_chengyu (checked : bool) (n : node) : node :=
  match n with
  | TextNode data => TextNode data
  | Element tagName classes children =>
    Element tagName
            (if class_contains (js "chengyu") classes
             then if checked then class_add (js "chengyu") classes
                  else class_remove (js "chengyu") classes
             else classes)
            (map (toggle_chengyu checked) children)
  end.

(** The elements of a tree that carry the class [chengyu], counted. *)
Fixpoint highlighted (n : node) : nat :=
  match n with
  | TextNode _ => 0
  | Element _ classes children =>
    (if class_contains (js "chengyu") classes then 1 else 0)
    + list_sum (map highlighted children)
  end.

(* ------------------------------------------------------------------ *)
(** ** [fetch] against the route of [server/app.js]

    [response.ok] holds for the statuses 200 to 299; the body of a
    response that is not ok is never read by [processText]. *)
Definition response_ok (status : Z) : bool := ((200 <=? status) && (status <=? 299))%Z.

Definition served_by_route (text : jsstring) : fetch_result :=
  match Server.api_process (Server.TextString text) with
  | Normal r =>
    FetchResponse (response_ok (Server.status r))
                  (match Server.body r with
                   | Server.Data d => JsonParsed d
                   | Server.Error message => JsonRejects message
                   end)
  | Throw reason => FetchRejects reason
  | Diverge => FetchRejects []
  end.

(* ================================================================== *)
(** * The client script with the [pinyin] library

    The variant of [js/api.js] that calls the [pinyin] package, which is
    not part of the repository: the call [pinyin(text, options)] is a
    parameter, with the value of the [heteronym] option as argument.  It
    returns an array with one array of strings per unit it recognises,
    or throws. *)

Module Client.

(** [{ text: char, pinyin: ... }]; the pinyin is [undefined] when the
    array of the library has no entry at the index. *)
Record pinyinSegment : Type := {
  segment_text : jsstring;
  segment_pinyin : option jsstring
}.

(** [s.split('')]: one string per code unit. *)
Definition split_units (s : jsstring) : list jsstring := map (fun c => [c]) s.

(** [array[index]] on an array whose entries may be [undefined]. *)
Definition array_at {A : Type} (array : list (option A)) (index : nat) : option A :=
  match nth_error array index with
  | Some entry => entry
  | None => None
  end.

(** [array.map((x, index) => f(x, index))] *)
Fixpoint map_indexed {A B : Type} (f : A -> nat -> B) (index : nat) (l : list A)
  : list B :=
  match l with
  | [] => []
  | x :: l' => f x index :: map_indexed f (S index) l'
  end.

Section PinyinLibrary.

Variable pinyin_library : jsstring -> bool -> completion (list (list jsstring)).

Definition getPinyinArray (text : jsstring) : completion (list (option jsstring)) :=
  try_catch
    (pinyinResult <- pinyin_library text false ;;
     Normal (map (fun pronunciation => hd_error pronunciation) pinyinResult))
    (fun error => Normal (map (fun _ => Some (js "error")) (split_units text))).

Definition processTextWithPinyin (paragraph : jsstring)
  : completion (list pinyinSegment) :=
  try_catch
    (let characters := split_units paragraph in
     pinyinArray <- getPinyinArray paragraph ;;
     Normal (map_indexed
               (fun char index =>
                  {| segment_text := char;
                     segment_pinyin := array_at pinyinArray index |})
               0 characters))
    (fun error =>
       Normal (map (fun char => {| segment_text := char;
                                   segment_pinyin := Some (js "error") |})
                   (split_units paragraph))).

End PinyinLibrary.

End Client.

(* ================================================================== *)
(** * Facts about strings *)

Lemma unit_eqb_eq (a b : code_unit) : unit_eqb a b = true <-> a = b.
Proof. apply N.eqb_eq. Qed.

Lemma str_eqb_eq (a b : jsstring) : str_eqb a b = true <-> a = b.
Proof.
  revert b; induction a as [|x a IH]; intros [|y b]; simpl; split;
    try easy; intros H.
  - apply andb_true_iff in H as [Hx Hr].
    apply unit_eqb_eq in Hx. apply IH in Hr. now subst.
  - injection H as -> ->. apply andb_true_iff; split.
    + now apply unit_eqb_eq.
    + now apply IH.
Qed.

Lemma str_eqb_refl (a : jsstring) : str_eqb a a = true.
Proof. now apply str_eqb_eq. Qed.

Lemma str_eqb_neq (a b : jsstring) : str_eqb a b = false <-> a <> b.
Proof.
  split.
  - intros H E. apply str_eqb_eq in E. congruence.
  - intros H. destruct (str_eqb a b) eqn:E; [|reflexivity].
    apply str_eqb_eq in E. contradiction.
Qed.

Lemma starts_with_app (needle s : jsstring) :
  starts_with needle s = true <-> exists rest, s = needle ++ rest.
Proof.
  revert s; induction needle as [|x needle IH]; intros s; simpl.
  - split; [intros _; now exists s | easy].
  - destruct s as [|y s].
    + split; [easy | intros [rest H]; discriminate].
    + rewrite andb_true_iff, unit_eqb_eq, IH. split.
      * intros [-> [rest ->]]. now exists rest.
      * intros [rest H]. injection H as -> ->. split; [easy | now exists rest].
Qed.

Lemma starts_with_firstn (needle s : jsstring) :
  starts_with needle s = true <-> firstn (length needle) s = needle.
Proof.
  rewrite starts_with_app. split.
  - intros [rest ->]. rewrite firstn_app, Nat.sub_diag, firstn_all. simpl.
    now rewrite app_nil_r.
  - intros H. exists (skipn (length needle) s).
    rewrite <- H at 1. symmetry. apply firstn_skipn.
Qed.

Lemma starts_with_length (needle s : jsstring) :
  starts_with needle s = true -> length needle <= length s.
Proof.
  rewrite starts_with_app. intros [rest ->]. rewrite length_app. lia.
Qed.

Lemma at_index_in_range (s : jsstring) (i : nat) :
  i < length s -> exists c, nth_error s i = Some c /\ at_index s i = [c].
Proof.
  intros H. unfold at_index. destruct (nth_error s i) as [c|] eqn:E.
  - now exists c.
  - apply nth_error_None in E. lia.
Qed.

Lemma at_index_app_middle (pre s : jsstring) (c : code_unit) :
  at_index (pre ++ c :: s) (length pre) = [c].
Proof.
  unfold at_index. now rewrite nth_error_app2, Nat.sub_diag by lia.
Qed.

Lemma concat_at_index (s : jsstring) :
  concat (map (at_index s) (seq 0 (length s))) = s.
Proof.
  enough (G : forall pre t, concat (map (at_index (pre ++ t)) (seq (length pre) (length t))) = t).
  { apply (G [] s). }
  intros pre t; revert pre; induction t as [|c t IH]; intros pre; simpl.
  - reflexivity.
  - rewrite at_index_app_middle. simpl. f_equal.
    specialize (IH (pre ++ [c])).
    rewrite <- app_assoc, length_app in IH. simpl in IH.
    now rewrite Nat.add_1_r in IH.
Qed.

(* ================================================================== *)
(** * Occurrences of an idiom and the [while] loop that collects them *)

Section Occurrences.

Variables paragraph cy : jsstring.
Hypothesis cy_not_empty : cy <> [].

Lemma skipn_cons_next (a : nat) (c : code_unit) (rest : jsstring) :
  skipn a paragraph = c :: rest -> skipn (S a) paragraph = rest.
Proof.
  intros H. change (S a) with (1 + a). rewrite <- skipn_skipn, H. reflexivity.
Qed.

Lemma occurrences_from_step (a : nat) :
  a < length paragraph ->
  Spec.occurrences_from paragraph cy a =
  (if starts_with cy (skipn a paragraph) then [a] else [])
    ++ Spec.occurrences_from paragraph cy (S a).
Proof.
  intros H. unfold Spec.occurrences_from.
  replace (length paragraph - a) with (S (length paragraph - S a)) by lia.
  simpl. now destruct (starts_with cy (skipn a paragraph)).
Qed.

Lemma occurrences_from_end (a : nat) :
  length paragraph <= a -> Spec.occurrences_from paragraph cy a = [].
Proof.
  intros H. unfold Spec.occurrences_from.
  now replace (length paragraph - a) with 0 by lia.
Qed.

Lemma occurrences_from_In (a k : nat) :
  In k (Spec.occurrences_from paragraph cy a) <->
  a <= k < length paragraph /\ starts_with cy (skipn k paragraph) = true.
Proof.
  unfold Spec.occurrences_from. rewrite filter_In, in_seq. intuition lia.
Qed.

Lemma search_occurrences (n a : nat) :
  length paragraph - a = n -> a <= length paragraph ->
  search cy (skipn a paragraph) a = hd_error (Spec.occurrences_from paragraph cy a).
Proof.
  revert a; induction n as [|n IH]; intros a Hn Ha.
  - rewrite occurrences_from_end by lia.
    rewrite skipn_all2 by lia.
    destruct cy; [contradiction | reflexivity].
  - rewrite occurrences_from_step by lia.
    destruct (skipn a paragraph) as [|c rest] eqn:E.
    + apply (f_equal (@length _)) in E. rewrite length_skipn in E. simpl in E. lia.
    + cbn [search]. destruct (starts_with cy (c :: rest)); [reflexivity|].
      simpl. rewrite <- (skipn_cons_next a c rest E). apply IH; lia.
Qed.

Lemma indexOf_occurrences (a : nat) :
  a <= length paragraph ->
  indexOf paragraph cy (Z.of_nat a) =
  match Spec.occurrences_from paragraph cy a with
  | [] => (-1)%Z
  | k :: _ => Z.of_nat k
  end.
Proof.
  intros Ha. unfold indexOf.
  replace (Z.to_nat (Z.min (Z.max (Z.of_nat a) 0) (Z.of_nat (length paragraph))))
    with a by lia.
  rewrite (search_occurrences _ a eq_refl Ha).
  now destruct (Spec.occurrences_from paragraph cy a).
Qed.

Lemma occurrences_from_cons (n a m : nat) (rest : list nat) :
  length paragraph - a = n ->
  Spec.occurrences_from paragraph cy a = m :: rest ->
  a <= m < length paragraph /\ rest = Spec.occurrences_from paragraph cy (S m).
Proof.
  revert a; induction n as [|n IH]; intros a Hn H.
  - rewrite occurrences_from_end in H by lia. discriminate.
  - rewrite occurrences_from_step in H by lia.
    destruct (starts_with cy (skipn a paragraph)).
    + simpl in H. injection H as <- <-. split; [lia | reflexivity].
    + simpl in H. apply IH in H; [|lia]. intuition lia.
Qed.

(** The loop leaves by its own test before the fuel is spent, with every
    occurrence from [a] on appended in ascending order. *)
Lemma collect_indices_spec (fuel a : nat) (acc : list Z) :
  a <= length paragraph -> length paragraph - a < fuel ->
  collect_indices fuel paragraph cy
    (match Spec.occurrences_from paragraph cy a with
     | [] => (-1)%Z
     | k :: _ => Z.of_nat k
     end) acc
  = Normal (acc ++ map Z.of_nat (Spec.occurrences_from paragraph cy a)).
Proof.
  revert a acc; induction fuel as [|fuel IH]; intros a acc Ha Hf; [lia|].
  destruct (Spec.occurrences_from paragraph cy a) as [|m rest] eqn:E; simpl.
  - now rewrite app_nil_r.
  - destruct (occurrences_from_cons _ a m rest eq_refl E) as [Hm ->].
    replace (Z.of_nat m =? -1)%Z with false by (symmetry; apply Z.eqb_neq; lia).
    replace (Z.of_nat m + 1)%Z with (Z.of_nat (S m)) by lia.
    rewrite indexOf_occurrences by lia.
    rewrite IH by lia. now rewrite <- app_assoc.
Qed.

Lemma collect_indices_all :
  collect_indices (length paragraph + 2) paragraph cy (indexOf paragraph cy 0) []
  = Normal (map Z.of_nat (Spec.occurrences paragraph cy)).
Proof.
  change 0%Z with (Z.of_nat 0). rewrite indexOf_occurrences by lia.
  apply (collect_indices_spec (length paragraph + 2) 0 []); lia.
Qed.

Lemma includes_occurrences :
  includes paragraph cy = false -> Spec.occurrences paragraph cy = [].
Proof.
  unfold includes. change 0%Z with (Z.of_nat 0).
  rewrite indexOf_occurrences by lia. unfold Spec.occurrences.
  destruct (Spec.occurrences_from paragraph cy 0); [reflexivity|].
  intros H. apply negb_false_iff, Z.eqb_eq in H. lia.
Qed.

End Occurrences.

(** With the empty string as idiom the loop has no exit: [indexOf]
    then answers the clamped position, never [-1]. *)
Lemma empty_idiom_never_ends (fuel : nat) (paragraph : jsstring) :
  forall index indices, (0 <= index)%Z ->
    collect_indices fuel paragraph [] index indices = Diverge.
Proof.
  induction fuel as [|fuel IH]; intros index indices Hi; simpl; [reflexivity|].
  replace (index =? -1)%Z with false by (symmetry; apply Z.eqb_neq; lia).
  apply IH. unfold indexOf.
  destruct (skipn _ paragraph); simpl; lia.
Qed.

(* ================================================================== *)
(** * The loops of the mock in closed form *)

Lemma fold_left_push {A X : Type} (f : X -> A) (l : list X) (acc : list A) :
  fold_left (fun segs i => segs ++ [f i]) l acc = acc ++ map f l.
Proof.
  revert acc; induction l as [|x l IH]; intros acc; simpl.
  - now rewrite app_nil_r.
  - rewrite IH, <- app_assoc. reflexivity.
Qed.

Lemma map_each_total {A B : Type} (f : A -> completion B) (g : A -> B) (l : list A) :
  (forall x, In x l -> f x = Normal (g x)) -> map_each f l = Normal (map g l).
Proof.
  induction l as [|x l IH]; intros H; simpl.
  - reflexivity.
  - rewrite (H x) by now left. simpl.
    rewrite IH by (intros y Hy; apply H; now right). reflexivity.
Qed.

Lemma idiom_segments_cons (gp gt : jsstring -> jsstring) (cy : jsstring)
      (catalog : list jsstring) (paragraph : jsstring) :
  idiom_segments gp gt (cy :: catalog) paragraph
  = flat_map (span_segments gp gt paragraph)
             (map (fun k => {| idiom := cy; startIndex := Z.of_nat k |})
                  (Spec.occurrences paragraph cy))
      ++ idiom_segments gp gt catalog paragraph.
Proof. unfold idiom_segments. simpl. apply flat_map_app. Qed.

Section MockLoops.

Variables getMockPinyin getMockTranslation : jsstring -> jsstring.

Local Abbreviation chengyuInfo := (chengyuInfo getMockPinyin getMockTranslation).
Local Abbreviation plainInfo := (plainInfo getMockPinyin getMockTranslation).
Local Abbreviation mark_chengyu := (mark_chengyu getMockPinyin getMockTranslation).
Local Abbreviation scan_chengyu := (scan_chengyu getMockPinyin getMockTranslation).
Local Abbreviation span_segments := (span_segments getMockPinyin getMockTranslation).
Local Abbreviation idiom_segments := (idiom_segments getMockPinyin getMockTranslation).
Local Abbreviation unsorted_segments := (unsorted_segments getMockPinyin getMockTranslation).
Local Abbreviation annotated_paragraph :=
  (annotated_paragraph getMockPinyin getMockTranslation).

Lemma mark_chengyu_spec (paragraph cy : jsstring) (segs : list charInfo) (startIdx : Z) :
  mark_chengyu paragraph cy segs startIdx
  = segs ++ span_segments paragraph {| idiom := cy; startIndex := startIdx |}.
Proof. apply fold_left_push. Qed.

Lemma fold_mark_chengyu (paragraph cy : jsstring) (indices : list Z)
      (segs : list charInfo) :
  fold_left (mark_chengyu paragraph cy) indices segs
  = segs ++ flat_map (span_segments paragraph)
                     (map (fun startIdx => {| idiom := cy; startIndex := startIdx |})
                          indices).
Proof.
  revert segs; induction indices as [|k indices IH]; intros segs; simpl.
  - now rewrite app_nil_r.
  - rewrite IH, mark_chengyu_spec, <- app_assoc. reflexivity.
Qed.

(** The segments the scan pushes are those of the spans it marks, for
    any list of idioms; neither returns when a loop does not end. *)
Lemma scan_chengyu_marked_spans (catalog : list jsstring) (paragraph : jsstring) :
  forall segs spans,
    scan_chengyu catalog paragraph (segs ++ flat_map (span_segments paragraph) spans)
    = marked <- marked_spans catalog paragraph spans ;;
      Normal (segs ++ flat_map (span_segments paragraph) marked).
Proof.
  induction catalog as [|cy catalog IH]; intros segs spans; simpl; [reflexivity|].
  destruct (includes paragraph cy); [|apply IH].
  destruct (collect_indices _ paragraph cy _ []) as [indices | e |]; simpl;
    try reflexivity.
  rewrite fold_mark_chengyu, <- app_assoc, <- flat_map_app. apply IH.
Qed.

(** On a list without the empty string the scan marks exactly the
    occurrences of its entries, entry by entry. *)
Lemma marked_spans_candidates (catalog : list jsstring) (paragraph : jsstring)
      (spans : list IdiomSpan) :
  Forall (fun cy => cy <> []) catalog ->
  marked_spans catalog paragraph spans
  = Normal (spans ++ Spec.candidates paragraph catalog).
Proof.
  intros Hne; revert spans; induction Hne as [|cy catalog Hcy Hne IH];
    intros spans; simpl.
  - now rewrite app_nil_r.
  - destruct (includes paragraph cy) eqn:E.
    + rewrite collect_indices_all by assumption. simpl.
      rewrite IH, map_map, <- app_assoc. reflexivity.
    + rewrite (includes_occurrences paragraph cy Hcy E). simpl. apply IH.
Qed.

Lemma scan_chengyu_spec (catalog : list jsstring) (paragraph : jsstring)
      (segs : list charInfo) :
  Forall (fun cy => cy <> []) catalog ->
  scan_chengyu catalog paragraph segs
  = Normal (segs ++ idiom_segments catalog paragraph).
Proof.
  intros Hne; revert segs; induction Hne as [|cy catalog Hcy Hne IH];
    intros segs; simpl.
  - now rewrite app_nil_r.
  - rewrite idiom_segments_cons.
    destruct (includes paragraph cy) eqn:E.
    + rewrite collect_indices_all by assumption. simpl.
      rewrite IH, fold_mark_chengyu, map_map, <- app_assoc. reflexivity.
    + rewrite (includes_occurrences paragraph cy Hcy E). simpl. apply IH.
Qed.

Lemma already_chengyu_app (segs extra : list charInfo) (char : jsstring) :
  Forall (fun s => isChengyu s = false) extra ->
  already_chengyu (segs ++ extra) char = already_chengyu segs char.
Proof.
  intros H. unfold already_chengyu. rewrite existsb_app.
  replace (existsb _ extra) with false; [apply orb_false_r|].
  symmetry. induction H as [|s extra Hs _ IH]; simpl; [reflexivity|].
  now rewrite Hs, andb_false_r.
Qed.

Lemma fold_plain_step (paragraph : jsstring) (segs : list charInfo) (l : list nat) :
  forall extra, Forall (fun s => isChengyu s = false) extra ->
  fold_left (plain_step getMockPinyin getMockTranslation paragraph) l (segs ++ extra)
  = segs ++ extra
      ++ map (plainInfo paragraph)
             (filter (fun i => negb (already_chengyu segs (at_index paragraph i))) l).
Proof.
  induction l as [|i l IH]; intros extra Hextra; simpl.
  - now rewrite app_nil_r.
  - unfold plain_step at 2. rewrite already_chengyu_app by assumption.
    destruct (already_chengyu segs (at_index paragraph i)); simpl.
    + now apply IH.
    + rewrite <- app_assoc. rewrite IH.
      * now rewrite <- app_assoc.
      * apply Forall_app; split; [assumption | now constructor].
Qed.

Lemma remaining_characters_spec (paragraph : jsstring) (segs : list charInfo) :
  remaining_characters getMockPinyin getMockTranslation paragraph segs
  = segs ++ map (plainInfo paragraph) (plain_positions paragraph segs).
Proof.
  unfold remaining_characters. rewrite <- (app_nil_r segs) at 1.
  now rewrite fold_plain_step by constructor.
Qed.

Lemma collect_segments_spec (catalog : list jsstring) (paragraph : jsstring) :
  Forall (fun cy => cy <> []) catalog ->
  collect_segments catalog getMockPinyin getMockTranslation paragraph
  = Normal (unsorted_segments catalog paragraph).
Proof.
  intros Hne. unfold collect_segments.
  rewrite scan_chengyu_spec by assumption. simpl.
  now rewrite remaining_characters_spec.
Qed.

Lemma mock_paragraph_spec (catalog : list jsstring) (paragraph : jsstring) :
  Forall (fun cy => cy <> []) catalog ->
  mock_paragraph catalog getMockPinyin getMockTranslation paragraph
  = Normal (annotated_paragraph catalog paragraph).
Proof.
  intros Hne. unfold mock_paragraph. now rewrite collect_segments_spec.
Qed.

Lemma mockProcessTextResponse_spec (catalog : list jsstring) (text : jsstring) :
  Forall (fun cy => cy <> []) catalog ->
  mockProcessTextResponse_in catalog getMockPinyin getMockTranslation text
  = Normal {| original := text;
              paragraphs := map (annotated_paragraph catalog) (split_paragraphs text) |}.
Proof.
  intros Hne. unfold mockProcessTextResponse_in.
  rewrite (map_each_total _ (annotated_paragraph catalog)).
  - reflexivity.
  - intros p _. now apply mock_paragraph_spec.
Qed.

End MockLoops.

Lemma sampleChengyu_not_empty : Forall (fun cy => cy <> []) sampleChengyu.
Proof. repeat constructor; discriminate. Qed.

(** The mock returns on every text: none of the listed idioms is empty,
    so each [while] loop ends. *)
Lemma mockProcessTextResponse_returns (text : jsstring) :
  mockProcessTextResponse text
  = Normal {| original := text;
              paragraphs := map (annotated_paragraph getMockPinyin getMockTranslation
                                                     sampleChengyu)
                                (split_paragraphs text) |}.
Proof. apply mockProcessTextResponse_spec, sampleChengyu_not_empty. Qed.

(* ================================================================== *)
(** * The server pipeline in closed form *)

Lemma server_for_each_index (paragraph : jsstring) (l : list nat) (segs : list charInfo) :
  Server.for_each_index (Server.process_char paragraph) l segs
  = Normal (segs ++ map (server_segment paragraph) l).
Proof.
  revert segs; induction l as [|i l IH]; intros segs; simpl.
  - now rewrite app_nil_r.
  - rewrite IH, <- app_assoc. reflexivity.
Qed.

Lemma server_process_paragraph (paragraph : jsstring) :
  Server.process_paragraph paragraph
  = Normal {| paragraph_text := paragraph;
              segments := map (server_segment paragraph) (seq 0 (length paragraph)) |}.
Proof.
  unfold Server.process_paragraph. now rewrite server_for_each_index.
Qed.

Lemma server_processChineseText (text : jsstring) :
  Server.processChineseText text
  = Normal {| original := text;
              paragraphs :=
                map (fun p => {| paragraph_text := p;
                                 segments := map (server_segment p) (seq 0 (length p)) |})
                    (split_paragraphs text) |}.
Proof.
  unfold Server.processChineseText.
  rewrite (map_each_total _ (fun p => {| paragraph_text := p;
                                          segments := map (server_segment p)
                                                          (seq 0 (length p)) |})).
  - reflexivity.
  - intros p _. apply server_process_paragraph.
Qed.

(** The server path keeps the round trip: it pushes one segment per
    index, in index order. *)
Lemma server_round_trip (text : jsstring) :
  exists data, Server.processChineseText text = Normal data /\
               Forall (fun p => joined p = paragraph_text p) (paragraphs data).
Proof.
  eexists; split; [apply server_processChineseText|]. simpl.
  apply Forall_map, Forall_forall. intros p _. unfold joined. simpl.
  rewrite map_map. apply concat_at_index.
Qed.

(* ================================================================== *)
(** * Round trip *)

(** C1 (round trip), at the input of the specification's own test: the
    mock pipeline annotates the paragraph 人不是人, whose character 人
    repeats, into segments that spell 人人不是.  The final sort orders
    segments by the first index of their character value, so the second
    人 moves in front of 不; the segments do not spell the paragraph. *)
Theorem mock_round_trip_fails_on_repeated_character :
  exists data,
    mockProcessTextResponse (js "人不是人") = Normal data /\
    map paragraph_text (paragraphs data) = [js "人不是人"] /\
    map joined (paragraphs data) = [js "人人不是"] /\
    js "人人不是" <> js "人不是人".
Proof.
  eexists. split; [vm_compute; reflexivity|].
  repeat split; try reflexivity. vm_compute. discriminate.
Qed.

(** The same defect on an idiom: 一心一意 comes out as 一一心意. *)
Example mock_round_trip_fails_on_idiom :
  exists data,
    mockProcessTextResponse (js "一心一意") = Normal data /\
    map joined (paragraphs data) = [js "一一心意"].
Proof. eexists. split; vm_compute; reflexivity. Qed.

(* ================================================================== *)
(** * Idiom flags on the server *)

(** C4 (every character of an idiom is flagged), on the server path:
    [checkIfChengyu] answers whether an idiom starts at the position, so
    for the paragraph 一心一意 only the segment of index 0 has
    [isChengyu] set; the segments of 心, 一 and 意 at indices 1 to 3 are
    not flagged, and no segment carries the completed idiom. *)
Theorem server_flags_only_first_character :
  exists data,
    Server.processChineseText (js "一心一意") = Normal data /\
    map (fun p => map isChengyu (segments p)) (paragraphs data)
    = [[true; false; false; false]] /\
    map (fun p => map chengyuComplete (segments p)) (paragraphs data)
    = [[FieldAbsent; FieldAbsent; FieldAbsent; FieldAbsent]].
Proof. eexists. split; [vm_compute; reflexivity|]. split; reflexivity. Qed.

(** The mock path does what the claim says for each span it marks: one
    segment per character of the span, all flagged, the idiom on the
    last one only. *)
Lemma span_segments_shape (gp gt : jsstring -> jsstring) (paragraph : jsstring)
      (s : IdiomSpan) :
  length (span_segments gp gt paragraph s) = length (idiom s) /\
  Forall (fun info => isChengyu info = true) (span_segments gp gt paragraph s) /\
  forall i, i < length (idiom s) ->
    exists info,
      nth_error (span_segments gp gt paragraph s) i = Some info /\
      text info = at_index paragraph (Z.to_nat (startIndex s + Z.of_nat i)) /\
      chengyuComplete info
      = if i =? length (idiom s) - 1 then FieldIdiom (idiom s) else FieldNull.
Proof.
  unfold span_segments. split; [|split].
  - now rewrite length_map, length_seq.
  - apply Forall_map, Forall_forall. reflexivity.
  - intros i Hi. eexists. split.
    + rewrite nth_error_map, nth_error_seq.
      destruct (Nat.ltb_spec i (length (idiom s))); [|lia]. reflexivity.
    + split; reflexivity.
Qed.

(* ================================================================== *)
(** * Splitting and trimming *)

Lemma blank_forallb (s : jsstring) : blank s <-> forallb is_white_space s = true.
Proof.
  unfold blank. rewrite Forall_forall, forallb_forall. reflexivity.
Qed.

Lemma trim_start_head (s : jsstring) (c : code_unit) (rest : jsstring) :
  trim_start s = c :: rest -> is_white_space c = false.
Proof.
  induction s as [|x s IH]; simpl; [discriminate|].
  destruct (is_white_space x) eqn:E; [exact IH|].
  intros H. injection H as <- _. exact E.
Qed.

Lemma trim_start_nil (s : jsstring) :
  trim_start s = [] <-> forallb is_white_space s = true.
Proof.
  induction s as [|x s IH]; simpl; [easy|].
  destruct (is_white_space x); simpl; [exact IH | easy].
Qed.

Lemma forallb_rev {A : Type} (f : A -> bool) (l : list A) :
  forallb f (rev l) = forallb f l.
Proof.
  apply eq_true_iff_eq. rewrite !forallb_forall.
  split; intros H x Hx; apply H; [now rewrite <- in_rev | now rewrite in_rev].
Qed.

Lemma rev_nil_iff {A : Type} (l : list A) : rev l = [] <-> l = [].
Proof.
  split; intros H; [|now subst].
  apply (f_equal (@rev A)) in H. now rewrite rev_involutive in H.
Qed.

Lemma trim_nil (s : jsstring) : trim s = [] <-> forallb is_white_space s = true.
Proof.
  unfold trim, trim_end.
  assert (G : rev (trim_start (rev (trim_start s))) = [] <-> trim_start s = []).
  { etransitivity; [apply rev_nil_iff|].
    etransitivity; [apply trim_start_nil|].
    rewrite forallb_rev.
    destruct (trim_start s) as [|c rest] eqn:E; simpl; [easy|].
    rewrite (trim_start_head s c rest E). easy. }
  etransitivity; [exact G | apply trim_start_nil].
Qed.

(** The filter of the first statement keeps the pieces that hold a
    character other than white space. *)
Lemma kept_iff_not_blank (p : jsstring) :
  (0 <? length (trim p)) = negb (forallb is_white_space p).
Proof.
  destruct (forallb is_white_space p) eqn:E; simpl.
  - apply trim_nil in E. now rewrite E.
  - destruct (trim p) eqn:T; [|reflexivity].
    apply trim_nil in T. congruence.
Qed.

Lemma split_paragraphs_filter (text : jsstring) :
  split_paragraphs text
  = filter (fun p => negb (forallb is_white_space p)) (split_newlines text).
Proof.
  unfold split_paragraphs. apply filter_ext. exact kept_iff_not_blank.
Qed.

(** Every piece is made of characters of the text that have a property
    all characters of the text have. *)
Lemma split_pieces_Forall (P : code_unit -> Prop) (s : jsstring) :
  Forall P s ->
  (forall cur, Forall P cur -> Forall (Forall P) (split_piece cur s)) /\
  Forall (Forall P) (split_run s).
Proof.
  induction 1 as [|c s Hc Hs [IHp IHr]]; split; simpl.
  - intros cur Hcur. now constructor.
  - now repeat constructor.
  - intros cur Hcur. destruct (is_newline c).
    + now constructor.
    + apply IHp, Forall_app. split; [assumption | now constructor].
  - destruct (is_newline c); [assumption|]. apply IHp. now constructor.
Qed.

Lemma split_paragraphs_blank (text : jsstring) :
  blank text -> split_paragraphs text = [].
Proof.
  intros H. rewrite split_paragraphs_filter.
  destruct (split_pieces_Forall (fun c => is_white_space c = true) text H) as [Hp _].
  specialize (Hp [] (Forall_nil _)).
  fold (split_newlines text) in Hp.
  induction Hp as [|p pieces Hblank _ IH]; simpl; [reflexivity|].
  apply blank_forallb in Hblank. now rewrite Hblank.
Qed.

(** No piece holds a newline. *)
Lemma split_pieces_no_newline (s : jsstring) :
  (forall cur, Forall (fun c => is_newline c = false) cur ->
               Forall (Forall (fun c => is_newline c = false)) (split_piece cur s)) /\
  Forall (Forall (fun c => is_newline c = false)) (split_run s).
Proof.
  induction s as [|c s [IHp IHr]]; split; simpl.
  - intros cur Hcur. now constructor.
  - now repeat constructor.
  - intros cur Hcur. destruct (is_newline c) eqn:E.
    + now constructor.
    + apply IHp, Forall_app. split; [assumption | now constructor].
  - destruct (is_newline c) eqn:E; [assumption|]. apply IHp. now constructor.
Qed.

(** The text is its pieces with a non-empty run of newlines between each
    two neighbours. *)
Lemma split_pieces_weave (s : jsstring) :
  (forall cur, exists runs,
      Forall newline_run runs /\
      length (split_piece cur s) = S (length runs) /\
      weave (split_piece cur s) runs = cur ++ s) /\
  (exists newlines runs,
      Forall (fun c => is_newline c = true) newlines /\
      Forall newline_run runs /\
      length (split_run s) = S (length runs) /\
      newlines ++ weave (split_run s) runs = s).
Proof.
  induction s as [|c s [IHp IHr]]; split.
  - intros cur. exists []. simpl. now rewrite app_nil_r.
  - exists [], []. simpl. repeat split; constructor.
  - intros cur. simpl. destruct (is_newline c) eqn:E.
    + destruct IHr as (newlines & runs & Hn & Hr & Hlen & Hw).
      exists ((c :: newlines) :: runs). repeat split.
      * constructor; [|assumption]. split; [discriminate | now constructor].
      * simpl. now rewrite Hlen.
      * simpl. now rewrite Hw.
    + destruct (IHp (cur ++ [c])) as (runs & Hr & Hlen & Hw).
      exists runs. repeat split; try assumption.
      now rewrite Hw, <- app_assoc.
  - simpl. destruct (is_newline c) eqn:E.
    + destruct IHr as (newlines & runs & Hn & Hr & Hlen & Hw).
      exists (c :: newlines), runs. repeat split; try assumption.
      * now constructor.
      * simpl. now rewrite Hw.
    + destruct (IHp [c]) as (runs & Hr & Hlen & Hw).
      exists [], runs. repeat split; try assumption. constructor.
Qed.

Lemma mock_paragraph_texts (text : jsstring) :
  exists data, mockProcessTextResponse text = Normal data /\
               map paragraph_text (paragraphs data) = split_paragraphs text.
Proof.
  eexists; split; [apply mockProcessTextResponse_returns|]. simpl.
  rewrite map_map. apply map_id.
Qed.

Lemma server_paragraph_texts (text : jsstring) :
  exists data, Server.processChineseText text = Normal data /\
               map paragraph_text (paragraphs data) = split_paragraphs text.
Proof.
  eexists; split; [apply server_processChineseText|]. simpl.
  rewrite map_map. apply map_id.
Qed.

(** C5 as stated fails on the trimming: the paragraph kept
    for the text " 你好 " still has its leading and trailing space; the
    filter calls [trim] only to test whether a piece is blank. *)
Lemma kept_paragraph_is_not_trimmed :
  (exists data, mockProcessTextResponse (js " 你好 ") = Normal data /\
                map paragraph_text (paragraphs data) = [js " 你好 "]) /\
  (exists data, Server.processChineseText (js " 你好 ") = Normal data /\
                map paragraph_text (paragraphs data) = [js " 你好 "]) /\
  trim (js " 你好 ") = js "你好" /\
  js " 你好 " <> js "你好".
Proof.
  split; [|split; [|split]].
  - eexists. split; vm_compute; reflexivity.
  - eexists. split; vm_compute; reflexivity.
  - reflexivity.
  - vm_compute. discriminate.
Qed.

(** C5 (segmentation), amended: for every raw text, in both pipelines,
    the text is cut at the maximal runs of newline characters (the text
    is its pieces with a non-empty run of newlines between neighbours,
    and no piece holds a newline); the paragraphs are, in their order of
    appearance, exactly the pieces that hold a character other than
    white space; each is kept as it stands in the text, interior, leading
    and trailing white space included. *)
Theorem paragraphs_are_untrimmed_pieces (text : jsstring) :
  (exists runs,
     Forall newline_run runs /\
     length (split_newlines text) = S (length runs) /\
     weave (split_newlines text) runs = text) /\
  Forall (Forall (fun c => is_newline c = false)) (split_newlines text) /\
  split_paragraphs text
  = filter (fun p => negb (forallb is_white_space p)) (split_newlines text) /\
  (exists data, mockProcessTextResponse text = Normal data /\
                map paragraph_text (paragraphs data) = split_paragraphs text) /\
  (exists data, Server.processChineseText text = Normal data /\
                map paragraph_text (paragraphs data) = split_paragraphs text).
Proof.
  split; [|split; [|split; [|split]]].
  - destruct (split_pieces_weave text) as [Hp _]. apply (Hp []).
  - destruct (split_pieces_no_newline text) as [Hp _]. apply (Hp []). constructor.
  - apply split_paragraphs_filter.
  - apply mock_paragraph_texts.
  - apply server_paragraph_texts.
Qed.

(* ================================================================== *)
(** * Blank input *)

(** C6 as stated fails on the route: the empty string is blank, and the
    handler of [/api/process] answers it with status 400 and an error
    body ([if (!text)]), not with a result of zero paragraphs. *)
Lemma empty_text_is_rejected_by_route :
  blank (js "") /\
  Server.api_process (Server.TextString (js ""))
  = Normal {| Server.status := 400;
              Server.body := Server.Error (js "No text provided") |}.
Proof. split; [constructor | reflexivity]. Qed.

(** C6 (blank input), amended: for every text made only of newlines and
    white space, the two annotation functions return a result with zero
    paragraphs, the empty string included; the route [/api/process]
    answers such a text with status 200 and zero paragraphs, except the
    empty string, which it rejects with status 400. *)
Theorem blank_text_has_no_paragraphs (text : jsstring) :
  blank text ->
  mockProcessTextResponse text = Normal {| original := text; paragraphs := [] |} /\
  Server.processChineseText text = Normal {| original := text; paragraphs := [] |} /\
  Server.api_process (Server.TextString text)
  = Normal (if length text =? 0
            then {| Server.status := 400;
                    Server.body := Server.Error (js "No text provided") |}
            else {| Server.status := 200;
                    Server.body :=
                      Server.Data {| original := text; paragraphs := [] |} |}).
Proof.
  intros H. apply split_paragraphs_blank in H.
  assert (Hm : mockProcessTextResponse text
               = Normal {| original := text; paragraphs := [] |}).
  { rewrite mockProcessTextResponse_returns, H. reflexivity. }
  assert (Hs : Server.processChineseText text
               = Normal {| original := text; paragraphs := [] |}).
  { rewrite server_processChineseText, H. reflexivity. }
  repeat split; try assumption.
  unfold Server.api_process. destruct (length text =? 0); [reflexivity|].
  now rewrite Hs.
Qed.

(** A space, a newline, a tab and a newline. *)
Lemma blank_text_has_no_paragraphs_witness :
  blank [32; 10; 9; 10]%N /\
  mockProcessTextResponse [32; 10; 9; 10]%N
  = Normal {| original := [32; 10; 9; 10]%N; paragraphs := [] |}.
Proof.
  assert (H : blank [32; 10; 9; 10]%N) by (repeat constructor).
  split; [exact H|].
  exact (proj1 (blank_text_has_no_paragraphs [32; 10; 9; 10]%N H)).
Defined.

(* ================================================================== *)
(** * The client entry point *)

(** C10 (client fallback): [processText] returns a result on every text
    and every behaviour of the network, and never throws.  It returns
    the parsed body when the response is ok and parses; in every other
    case (the request rejects, the response is not ok, the body does not
    parse) it returns what [mockProcessTextResponse] returns on the same
    text. *)
Theorem processText_never_rejects (fetch : jsstring -> fetch_result) (text : jsstring) :
  (exists data, processText fetch text = Normal data) /\
  processText fetch text
  = match fetch text with
    | FetchResponse true (JsonParsed data) => Normal data
    | _ => mockProcessTextResponse text
    end.
Proof.
  assert (E : processText fetch text
              = match fetch text with
                | FetchResponse true (JsonParsed data) => Normal data
                | _ => mockProcessTextResponse text
                end).
  { unfold processText.
    destruct (fetch text) as [reason | [|] [data | reason]]; reflexivity. }
  split; [|exact E]. rewrite E.
  destruct (fetch text) as [reason | [|] [data | reason]];
    try (rewrite mockProcessTextResponse_returns); eexists; reflexivity.
Qed.

(* ================================================================== *)
(** * The second loop of the mock *)

Lemma already_chengyu_iff (segs : list charInfo) (char : jsstring) :
  already_chengyu segs char = true <->
  exists s, In s segs /\ isChengyu s = true /\ text s = char.
Proof.
  unfold already_chengyu. rewrite existsb_exists. split.
  - intros (s & Hin & H). apply andb_true_iff in H as [Ht Hc].
    apply str_eqb_eq in Ht. now exists s.
  - intros (s & Hin & Hc & Ht). exists s. split; [assumption|].
    apply andb_true_iff. split; [now apply str_eqb_eq | assumption].
Qed.

Lemma plain_positions_In (paragraph : jsstring) (segs : list charInfo) (i : nat) :
  In i (plain_positions paragraph segs) <->
  i < length paragraph /\
  ~ exists s, In s segs /\ isChengyu s = true /\ text s = at_index paragraph i.
Proof.
  unfold plain_positions. rewrite filter_In, in_seq, negb_true_iff.
  rewrite <- already_chengyu_iff. split.
  - intros [Hi H]. split; [lia | congruence].
  - intros [Hi H]. split; [lia | now apply not_true_is_false].
Qed.

(** C9 (value-keyed plain pass): in the mock, once the idiom scan has
    collected its segments, the second loop pushes a plain segment for
    index [i] of the paragraph exactly when no idiom-marked segment has
    the character value of [paragraph[i]] as its text, whatever index
    that segment was read from.  So in 一心一意一 the last 一, at index 4
    and outside the idiom, gets no segment. *)
Theorem plain_pass_is_keyed_by_value (paragraph : jsstring) :
  exists idiomSegs,
    scan_chengyu getMockPinyin getMockTranslation sampleChengyu paragraph []
    = Normal idiomSegs /\
    collect_segments sampleChengyu getMockPinyin getMockTranslation paragraph
    = Normal (idiomSegs
                ++ map (plainInfo getMockPinyin getMockTranslation paragraph)
                       (plain_positions paragraph idiomSegs)) /\
    Forall (fun s => isChengyu s = true) idiomSegs /\
    (forall i, In i (plain_positions paragraph idiomSegs) <->
               i < length paragraph /\
               ~ exists s, In s idiomSegs /\ text s = at_index paragraph i) /\
    plain_positions (js "一心一意一")
      (idiom_segments getMockPinyin getMockTranslation sampleChengyu (js "一心一意一"))
    = [].
Proof.
  exists (idiom_segments getMockPinyin getMockTranslation sampleChengyu paragraph).
  assert (Hall : Forall (fun s => isChengyu s = true)
                   (idiom_segments getMockPinyin getMockTranslation
                                   sampleChengyu paragraph)).
  { unfold idiom_segments. apply Forall_flat_map, Forall_forall. intros sp _.
    apply span_segments_shape. }
  split; [|split; [|split; [|split]]].
  - rewrite scan_chengyu_spec by apply sampleChengyu_not_empty. reflexivity.
  - rewrite collect_segments_spec by apply sampleChengyu_not_empty. reflexivity.
  - exact Hall.
  - intros i. rewrite plain_positions_In. split; intros [Hi H]; split; try assumption.
    + intros (s & Hin & Ht). apply H. exists s. repeat split; try assumption.
      rewrite Forall_forall in Hall. now apply Hall.
    + intros (s & Hin & _ & Ht). apply H. now exists s.
  - vm_compute. reflexivity.
Qed.

(* ================================================================== *)
(** * The pipeline against a provider with state *)

Section ProviderFacts.

Variable World : Type.
Variables lookupPinyin lookupTranslation : jsstring -> World -> jsstring * World.
Variables answerPinyin answerTranslation : jsstring -> jsstring.

(** The provider's answers do not depend on its state. *)
Hypothesis pinyin_answer :
  forall char w, fst (lookupPinyin char w) = answerPinyin char.
Hypothesis translation_answer :
  forall char w, fst (lookupTranslation char w) = answerTranslation char.

Lemma chengyuInfo_st_value (paragraph cy : jsstring) (startIdx : Z) (i : nat) (w : World) :
  fst (chengyuInfo_st lookupPinyin lookupTranslation paragraph cy startIdx i w)
  = chengyuInfo answerPinyin answerTranslation paragraph cy startIdx i.
Proof.
  unfold chengyuInfo_st, chengyuInfo.
  set (char := at_index paragraph (Z.to_nat (startIdx + Z.of_nat i))).
  rewrite <- (pinyin_answer char w).
  destruct (lookupPinyin char w) as [py w1].
  rewrite <- (translation_answer char w1).
  destruct (lookupTranslation char w1) as [tr w2]. reflexivity.
Qed.

Lemma plainInfo_st_value (paragraph : jsstring) (i : nat) (w : World) :
  fst (plainInfo_st lookupPinyin lookupTranslation paragraph i w)
  = plainInfo answerPinyin answerTranslation paragraph i.
Proof.
  unfold plainInfo_st, plainInfo.
  set (char := at_index paragraph i).
  rewrite <- (pinyin_answer char w).
  destruct (lookupPinyin char w) as [py w1].
  rewrite <- (translation_answer char w1).
  destruct (lookupTranslation char w1) as [tr w2]. reflexivity.
Qed.

Lemma for_each_st_value {X S : Type} (stepW : S -> X -> World -> S * World)
      (step : S -> X -> S) :
  (forall s x w, fst (stepW s x w) = step s x) ->
  forall l s w, fst (for_each_st stepW l s w) = fold_left step l s.
Proof.
  intros Hstep l; induction l as [|x l IH]; intros s w; simpl; [reflexivity|].
  rewrite <- (Hstep s x w). destruct (stepW s x w) as [s' w']. apply IH.
Qed.

Lemma push_st_value {X : Type} (make : X -> World -> charInfo * World)
      (made : X -> charInfo) :
  (forall x w, fst (make x w) = made x) ->
  forall segs x w, fst (push_st make segs x w) = segs ++ [made x].
Proof.
  intros H segs x w. unfold push_st. rewrite <- (H x w).
  now destruct (make x w).
Qed.

Lemma mark_chengyu_st_value (paragraph cy : jsstring) (segs : list charInfo)
      (startIdx : Z) (w : World) :
  fst (mark_chengyu_st lookupPinyin lookupTranslation paragraph cy segs startIdx w)
  = mark_chengyu answerPinyin answerTranslation paragraph cy segs startIdx.
Proof.
  unfold mark_chengyu_st, mark_chengyu. apply for_each_st_value.
  apply push_st_value. intros x w'. apply chengyuInfo_st_value.
Qed.

Lemma scan_chengyu_st_value (catalog : list jsstring) (paragraph : jsstring) :
  forall segs w,
    value_of (scan_chengyu_st lookupPinyin lookupTranslation catalog paragraph segs w)
    = scan_chengyu answerPinyin answerTranslation catalog paragraph segs.
Proof.
  induction catalog as [|cy catalog IH]; intros segs w; simpl; [reflexivity|].
  destruct (includes paragraph cy); [|apply IH].
  destruct (collect_indices _ paragraph cy _ []) as [indices | e |]; simpl;
    try reflexivity.
  rewrite <- (for_each_st_value _ _ (mark_chengyu_st_value paragraph cy) indices segs w).
  destruct (for_each_st _ indices segs w) as [segs' w']. apply IH.
Qed.

Lemma plain_step_st_value (paragraph : jsstring) (segs : list charInfo) (i : nat)
      (w : World) :
  fst (plain_step_st lookupPinyin lookupTranslation paragraph segs i w)
  = plain_step answerPinyin answerTranslation paragraph segs i.
Proof.
  unfold plain_step_st, plain_step.
  destruct (already_chengyu segs (at_index paragraph i)); [reflexivity|].
  apply push_st_value. intros x w'. apply plainInfo_st_value.
Qed.

Lemma mock_paragraph_st_value (catalog : list jsstring) (paragraph : jsstring) (w : World) :
  value_of (mock_paragraph_st catalog lookupPinyin lookupTranslation paragraph w)
  = mock_paragraph catalog answerPinyin answerTranslation paragraph.
Proof.
  unfold mock_paragraph_st, mock_paragraph, collect_segments.
  rewrite <- (scan_chengyu_st_value catalog paragraph [] w).
  destruct (scan_chengyu_st _ _ catalog paragraph [] w) as [[segs w1] | e |]; simpl;
    try reflexivity.
  unfold remaining_characters.
  rewrite <- (for_each_st_value _ _ (plain_step_st_value paragraph)
                                (seq 0 (length paragraph)) segs w1).
  now destruct (for_each_st _ (seq 0 (length paragraph)) segs w1).
Qed.

Lemma map_each_st_value {A B : Type} (f : A -> World -> completion (B * World))
      (g : A -> completion B) :
  (forall x w, value_of (f x w) = g x) ->
  forall l w, value_of (map_each_st f l w) = map_each g l.
Proof.
  intros H l; induction l as [|x l IH]; intros w; simpl; [reflexivity|].
  rewrite <- (H x w). destruct (f x w) as [[y w1] | e |]; simpl; try reflexivity.
  rewrite <- (IH w1). now destruct (map_each_st f l w1) as [[ys w2] | e |].
Qed.

Lemma mockProcessTextResponse_st_value (catalog : list jsstring) (text : jsstring)
      (w : World) :
  value_of (mockProcessTextResponse_st catalog lookupPinyin lookupTranslation text w)
  = mockProcessTextResponse_in catalog answerPinyin answerTranslation text.
Proof.
  unfold mockProcessTextResponse_st, mockProcessTextResponse_in.
  rewrite <- (map_each_st_value _ _ (mock_paragraph_st_value catalog)
                                (split_paragraphs text) w).
  now destruct (map_each_st _ (split_paragraphs text) w) as [[ps w1] | e |].
Qed.

End ProviderFacts.

(** With the source's tables behind a provider that only counts its
    lookups, the run is [mockProcessTextResponse]. *)
Lemma counting_provider_is_the_mock (text : jsstring) (served : nat) :
  value_of (mockProcessTextResponse_st sampleChengyu
              (counting getMockPinyin) (counting getMockTranslation) text served)
  = mockProcessTextResponse text.
Proof. apply mockProcessTextResponse_st_value; reflexivity. Qed.

(** C7 (determinism): against a lexicon provider whose answers do not
    depend on its internal state, two annotations of the same text with
    the same idiom list give the same outcome (the same paragraphs, the
    same segments in the same order with the same content), whatever
    state the provider is in when each run starts, in particular the
    state the first run leaves behind. *)
Theorem annotation_is_deterministic
        {World : Type} (catalog : list jsstring)
        (lookupPinyin lookupTranslation : jsstring -> World -> jsstring * World) :
  (forall char w w', fst (lookupPinyin char w) = fst (lookupPinyin char w')) ->
  (forall char w w', fst (lookupTranslation char w) = fst (lookupTranslation char w')) ->
  forall text w w',
    value_of (mockProcessTextResponse_st catalog lookupPinyin lookupTranslation text w)
    = value_of (mockProcessTextResponse_st catalog lookupPinyin lookupTranslation text w').
Proof.
  intros HP HT text w w'.
  pose (answerPinyin := fun char => fst (lookupPinyin char w)).
  pose (answerTranslation := fun char => fst (lookupTranslation char w)).
  assert (G : forall w0,
             value_of (mockProcessTextResponse_st catalog lookupPinyin
                                                  lookupTranslation text w0)
             = mockProcessTextResponse_in catalog answerPinyin answerTranslation text).
  { intros w0. apply mockProcessTextResponse_st_value.
    - intros char w1. apply HP.
    - intros char w1. apply HT. }
  now rewrite !G.
Qed.

(** Two runs against the counting provider, before and after it has
    served eight lookups. *)
Lemma annotation_is_deterministic_witness :
  value_of (mockProcessTextResponse_st sampleChengyu
              (counting getMockPinyin) (counting getMockTranslation)
              (js "人不是人") 0)
  = value_of (mockProcessTextResponse_st sampleChengyu
                (counting getMockPinyin) (counting getMockTranslation)
                (js "人不是人") 8).
Proof.
  apply (annotation_is_deterministic sampleChengyu
           (counting getMockPinyin) (counting getMockTranslation)).
  - intros char w w'. reflexivity.
  - intros char w w'. reflexivity.
Defined.

(* ================================================================== *)
(** * A lookup that fails for one character *)

Lemma obj_get_remove_entry (obj : js_object) (key k : jsstring) :
  obj_get (remove_entry obj key) k
  = if str_eqb k key then None else obj_get obj k.
Proof.
  induction obj as [|[k0 v0] obj IH]; simpl.
  - now destruct (str_eqb k key).
  - destruct (str_eqb k0 key) eqn:E0; simpl.
    + rewrite IH. destruct (str_eqb k key) eqn:E; [reflexivity|].
      destruct (obj_get obj k); [reflexivity|].
      apply str_eqb_eq in E0. subst k0.
      destruct (str_eqb key k) eqn:E'; [|reflexivity].
      apply str_eqb_eq in E'. subst k. rewrite str_eqb_refl in E. discriminate.
    + rewrite IH. destruct (str_eqb k key) eqn:E; [|reflexivity].
      apply str_eqb_eq in E. subst k. now rewrite E0.
Qed.

Lemma or_default_remove_entry (obj : js_object) (key k fallback : jsstring) :
  or_default (obj_get (remove_entry obj key) k) fallback
  = if str_eqb k key then fallback else or_default (obj_get obj k) fallback.
Proof.
  rewrite obj_get_remove_entry. now destruct (str_eqb k key).
Qed.

Lemma Forall2_map_same {A B : Type} (R : B -> B -> Prop) (f g : A -> B) (l : list A) :
  (forall x, R (f x) (g x)) -> Forall2 R (map f l) (map g l).
Proof. intros H. induction l; simpl; constructor; auto. Qed.

Lemma Forall2_flat_map_same {A B : Type} (R : B -> B -> Prop) (f g : A -> list B)
      (l : list A) :
  (forall x, Forall2 R (f x) (g x)) -> Forall2 R (flat_map f l) (flat_map g l).
Proof.
  intros H. induction l; simpl; [constructor|]. apply Forall2_app; auto.
Qed.

(** Sorting two lists that are related element by element keeps them
    related, when the comparison does not tell related elements apart. *)
Lemma Forall2_sort_insert {A : Type} (R : A -> A -> Prop) (compare : A -> A -> Z) :
  (forall a a' b b', R a a' -> R b b' -> compare a b = compare a' b') ->
  forall x x' l l', R x x' -> Forall2 R l l' ->
    Forall2 R (sort_insert compare x l) (sort_insert compare x' l').
Proof.
  intros Hc x x' l l' Hx Hl. induction Hl as [|y y' l l' Hy Hl IH]; simpl.
  - repeat constructor. assumption.
  - rewrite <- (Hc x x' y y' Hx Hy).
    destruct (compare x y <=? 0)%Z; repeat constructor; assumption.
Qed.

Lemma Forall2_array_sort {A : Type} (R : A -> A -> Prop) (compare : A -> A -> Z) :
  (forall a a' b b', R a a' -> R b b' -> compare a b = compare a' b') ->
  forall l l', Forall2 R l l' ->
    Forall2 R (array_sort compare l) (array_sort compare l').
Proof.
  intros Hc l l' Hl. induction Hl; simpl; [constructor|].
  now apply Forall2_sort_insert.
Qed.

Section LookupFailure.

Variables pinyinMap translationMap : js_object.
Variable char : jsstring.

Local Abbreviation gp := (getMockPinyin_in pinyinMap).
Local Abbreviation gt := (getMockTranslation_in translationMap).
Local Abbreviation gp' := (getMockPinyin_in (remove_entry pinyinMap char)).
Local Abbreviation gt' := (getMockTranslation_in (remove_entry translationMap char)).

Lemma chengyuInfo_falls_back (paragraph cy : jsstring) (startIdx : Z) (i : nat) :
  falls_back_only_at char (chengyuInfo gp gt paragraph cy startIdx i)
                          (chengyuInfo gp' gt' paragraph cy startIdx i).
Proof.
  unfold falls_back_only_at, chengyuInfo, getMockPinyin_in, getMockTranslation_in.
  simpl. rewrite !or_default_remove_entry.
  repeat split; try reflexivity.
  destruct (str_eqb _ char); split; reflexivity.
Qed.

Lemma plainInfo_falls_back (paragraph : jsstring) (i : nat) :
  falls_back_only_at char (plainInfo gp gt paragraph i) (plainInfo gp' gt' paragraph i).
Proof.
  unfold falls_back_only_at, plainInfo, getMockPinyin_in, getMockTranslation_in.
  simpl. rewrite !or_default_remove_entry.
  repeat split; try reflexivity.
  destruct (str_eqb _ char); split; reflexivity.
Qed.

Lemma already_chengyu_falls_back (segs segs' : list charInfo) (c : jsstring) :
  Forall2 (falls_back_only_at char) segs segs' ->
  already_chengyu segs' c = already_chengyu segs c.
Proof.
  induction 1 as [|s s' segs segs' (Ht & Hc & _) _ IH]; simpl; [reflexivity|].
  now rewrite Ht, Hc, IH.
Qed.

Lemma idiom_segments_fall_back (catalog : list jsstring) (paragraph : jsstring) :
  Forall2 (falls_back_only_at char)
          (idiom_segments gp gt catalog paragraph)
          (idiom_segments gp' gt' catalog paragraph).
Proof.
  unfold idiom_segments. apply Forall2_flat_map_same. intros sp.
  unfold span_segments. apply Forall2_map_same. intros i.
  apply chengyuInfo_falls_back.
Qed.

Lemma unsorted_segments_fall_back (catalog : list jsstring) (paragraph : jsstring) :
  Forall2 (falls_back_only_at char)
          (unsorted_segments gp gt catalog paragraph)
          (unsorted_segments gp' gt' catalog paragraph).
Proof.
  unfold unsorted_segments. apply Forall2_app.
  - apply idiom_segments_fall_back.
  - replace (plain_positions paragraph (idiom_segments gp' gt' catalog paragraph))
      with (plain_positions paragraph (idiom_segments gp gt catalog paragraph)).
    + apply Forall2_map_same. intros i. apply plainInfo_falls_back.
    + unfold plain_positions. apply filter_ext. intros i. f_equal. symmetry.
      apply already_chengyu_falls_back, idiom_segments_fall_back.
Qed.

Lemma annotated_paragraph_falls_back (catalog : list jsstring) (paragraph : jsstring) :
  Forall2 (falls_back_only_at char)
          (segments (annotated_paragraph gp gt catalog paragraph))
          (segments (annotated_paragraph gp' gt' catalog paragraph)).
Proof.
  simpl. apply Forall2_array_sort; [|apply unsorted_segments_fall_back].
  intros a a' b b' (Ha & _) (Hb & _). unfold compare_segments. now rewrite Ha, Hb.
Qed.

End LookupFailure.

(** C8 (a failing lookup stays local), on the mock with any pair of
    lookup tables: take away the entries of one character, so that its
    lookups fail.  The annotation still returns; it has the same
    paragraphs and, segment by segment in the same order, the same text
    and idiom marks; the segments of that character carry the
    placeholders [pinyin] and [translation]; every other segment has the
    pinyin and translation it had.  On the server the two lookups return
    their placeholder and never throw. *)
Theorem lookup_failure_is_local (pinyinMap translationMap : js_object)
        (char text : jsstring) :
  (exists data data',
     mockProcessTextResponse_in sampleChengyu (getMockPinyin_in pinyinMap)
                                (getMockTranslation_in translationMap) text
     = Normal data /\
     mockProcessTextResponse_in sampleChengyu
                                (getMockPinyin_in (remove_entry pinyinMap char))
                                (getMockTranslation_in (remove_entry translationMap char))
                                text
     = Normal data' /\
     original data' = original data /\
     Forall2 (fun p p' =>
                paragraph_text p' = paragraph_text p /\
                Forall2 (falls_back_only_at char) (segments p) (segments p'))
             (paragraphs data) (paragraphs data')) /\
  (forall t, Server.getPinyin t = Normal (js "pīnyīn") /\
             Server.getTranslation t = Normal (js "translation")).
Proof.
  split; [|intros t; split; reflexivity].
  do 2 eexists. split; [|split; [|split]].
  - apply mockProcessTextResponse_spec, sampleChengyu_not_empty.
  - apply mockProcessTextResponse_spec, sampleChengyu_not_empty.
  - reflexivity.
  - simpl. apply Forall2_map_same. intros p. split; [reflexivity|].
    apply annotated_paragraph_falls_back.
Qed.

(** With the source's tables and the entries of 人 taken away, on
    人不是人: the two segments of 人 fall back, 不 and 是 keep their
    pinyin. *)
Example lookup_failure_example :
  exists data',
    mockProcessTextResponse_in sampleChengyu
      (getMockPinyin_in (remove_entry mockPinyinMap (js "人")))
      (getMockTranslation_in (remove_entry mockTranslationMap (js "人")))
      (js "人不是人")
    = Normal data' /\
    map (fun p => map pinyin (segments p)) (paragraphs data')
    = [[js "pinyin"; js "pinyin"; js "bù"; js "shì"]].
Proof. eexists. split; vm_compute; reflexivity. Qed.

(* ================================================================== *)
(** * Occurrences that cannot share a character *)

Lemma common_extension_agree (u v r1 r2 : jsstring) :
  u ++ r1 = v ++ r2 -> agree u v = true.
Proof.
  unfold agree. revert v; induction u as [|x u IH]; intros v H; [reflexivity|].
  destruct v as [|y v]; simpl; [reflexivity|].
  simpl in H. injection H as -> H.
  replace (unit_eqb y y) with true by (symmetry; now apply unit_eqb_eq).
  simpl. now apply IH.
Qed.

(** Two occurrences of which the second starts inside the first: the
    first entry, cut at the offset, agrees with the second entry. *)
Lemma occurrences_agree (paragraph x y : jsstring) (i j : nat) :
  starts_with x (skipn i paragraph) = true ->
  starts_with y (skipn j paragraph) = true ->
  i <= j -> j - i < length x ->
  agree (skipn (j - i) x) y = true.
Proof.
  intros Hx Hy Hij Hd.
  apply starts_with_app in Hx as [r1 Hx]. apply starts_with_app in Hy as [r2 Hy].
  apply (common_extension_agree _ _ r1 r2).
  rewrite <- Hy. replace j with ((j - i) + i) at 2 by lia.
  rewrite <- skipn_skipn, Hx, skipn_app.
  replace (j - i - length x) with 0 by lia. reflexivity.
Qed.

Lemma distinct_NoDup (l : list jsstring) : distinct l = true -> NoDup l.
Proof.
  induction l as [|x l IH]; simpl; intros H; [constructor|].
  apply andb_true_iff in H as [Hx Hl]. constructor; [|now apply IH].
  intros Hin. apply negb_true_iff in Hx.
  assert (E : existsb (str_eqb x) l = true).
  { apply existsb_exists. exists x. split; [assumption | apply str_eqb_refl]. }
  congruence.
Qed.

Lemma separated_spec (catalog : list jsstring) :
  separated catalog = true ->
  NoDup catalog /\
  Forall (fun cy => cy <> []) catalog /\
  forall a b d, In a catalog -> In b catalog -> d < length a ->
                agree (skipn d a) b = true -> d = 0 /\ a = b.
Proof.
  unfold separated, clash_free. intros H.
  apply andb_true_iff in H as [H Hclash]. apply andb_true_iff in H as [Hd Hne].
  split; [now apply distinct_NoDup | split].
  - rewrite forallb_forall in Hne. apply Forall_forall. intros cy Hin E.
    apply Hne in Hin. subst cy. discriminate.
  - intros a b d Ha Hb Hlt Hag.
    rewrite forallb_forall in Hclash. specialize (Hclash a Ha).
    rewrite forallb_forall in Hclash. specialize (Hclash b Hb).
    rewrite forallb_forall in Hclash.
    assert (Hin : In d (seq 0 (length a))) by (apply in_seq; lia).
    specialize (Hclash d Hin). rewrite Hag in Hclash. simpl in Hclash.
    rewrite orb_false_r in Hclash. apply andb_true_iff in Hclash as [H0 Hab].
    split; [now apply Nat.eqb_eq | now apply str_eqb_eq].
Qed.

Lemma candidates_In (paragraph : jsstring) (catalog : list jsstring) (sp : IdiomSpan) :
  In sp (Spec.candidates paragraph catalog) <->
  In (idiom sp) catalog /\
  exists k, startIndex sp = Z.of_nat k /\ k < length paragraph /\
            starts_with (idiom sp) (skipn k paragraph) = true.
Proof.
  unfold Spec.candidates, Spec.occurrences. rewrite in_flat_map. split.
  - intros (cy & Hcy & Hin). apply in_map_iff in Hin as (k & <- & Hk).
    apply occurrences_from_In in Hk as [Hk Hs]. simpl.
    split; [assumption|]. exists k. repeat split; [lia | assumption].
  - intros (Hcy & k & Hstart & Hk & Hs). exists (idiom sp). split; [assumption|].
    apply in_map_iff. exists k. split.
    + destruct sp; simpl in *. now subst.
    + apply occurrences_from_In. split; [lia | assumption].
Qed.

Lemma NoDup_flat_map {A B : Type} (f : A -> list B) (l : list A) :
  NoDup l ->
  (forall x, In x l -> NoDup (f x)) ->
  (forall x y z, In x l -> In y l -> In z (f x) -> In z (f y) -> x = y) ->
  NoDup (flat_map f l).
Proof.
  induction 1 as [|x l Hx Hl IH]; intros Hf Hsep; simpl; [constructor|].
  apply NoDup_app.
  - apply Hf. now left.
  - apply IH.
    + intros y Hy. apply Hf. now right.
    + intros y1 y2 z H1 H2. apply Hsep; now right.
  - intros z Hz Hin. apply in_flat_map in Hin as (y & Hy & Hzy).
    assert (x = y) by (apply (Hsep x y z); [now left | now right | assumption..]).
    subst y. contradiction.
Qed.

Section Separated.

Variable catalog : list jsstring.
Variable paragraph : jsstring.
Hypothesis catalog_separated : separated catalog = true.

(** Two marked occurrences that overlap are the same occurrence. *)
Lemma candidates_overlap_same (a b : IdiomSpan) :
  In a (Spec.candidates paragraph catalog) ->
  In b (Spec.candidates paragraph catalog) ->
  overlaps a b = true -> a = b.
Proof.
  destruct (separated_spec catalog catalog_separated) as (_ & _ & Hclash).
  intros Ha Hb Hov.
  apply candidates_In in Ha as (Hca & i & Hi & Hil & Hsa).
  apply candidates_In in Hb as (Hcb & j & Hj & Hjl & Hsb).
  unfold overlaps, span_end in Hov.
  apply andb_true_iff in Hov as [H1 H2].
  apply Z.ltb_lt in H1, H2. rewrite Hi, Hj in H1, H2.
  destruct (Nat.le_gt_cases i j) as [Hij | Hji].
  - assert (Hd : j - i < length (idiom a)) by lia.
    destruct (Hclash _ _ _ Hca Hcb Hd
                     (occurrences_agree paragraph _ _ i j Hsa Hsb Hij Hd)) as [H0 Hab].
    destruct a, b; simpl in *. subst. f_equal. lia.
  - assert (Hd : i - j < length (idiom b)) by lia.
    destruct (Hclash _ _ _ Hcb Hca Hd
                     (occurrences_agree paragraph _ _ j i Hsb Hsa (Nat.lt_le_incl _ _ Hji) Hd))
      as [H0 Hab].
    lia.
Qed.

Lemma candidates_NoDup : NoDup (Spec.candidates paragraph catalog).
Proof.
  destruct (separated_spec catalog catalog_separated) as (Hnd & _ & _).
  unfold Spec.candidates. apply NoDup_flat_map; [assumption| |].
  - intros cy _. apply NoDup_map_NoDup_ForallPairs.
    + intros k1 k2 _ _ H. injection H as H. lia.
    + apply NoDup_filter, seq_NoDup.
  - intros cy1 cy2 sp _ _ H1 H2.
    apply in_map_iff in H1 as (k1 & <- & _).
    apply in_map_iff in H2 as (k2 & H2 & _).
    now injection H2.
Qed.

End Separated.

(* ------------------------------------------------------------------ *)
(** ** The matcher of the specification on such catalogs *)

Lemma sort_insert_perm {A : Type} (compare : A -> A -> Z) (x : A) (l : list A) :
  Permutation (sort_insert compare x l) (x :: l).
Proof.
  induction l as [|y l IH]; simpl; [reflexivity|].
  destruct (compare x y <=? 0)%Z; [reflexivity|].
  rewrite IH. apply perm_swap.
Qed.

Lemma array_sort_perm {A : Type} (compare : A -> A -> Z) (l : list A) :
  Permutation (array_sort compare l) l.
Proof.
  induction l as [|x l IH]; simpl; [reflexivity|].
  rewrite sort_insert_perm. now constructor.
Qed.

(** A comparison by key leaves the array in ascending key order. *)
Lemma array_sort_sorted {A : Type} (compare : A -> A -> Z) (key : A -> Z) :
  (forall a b, compare a b = (key a - key b)%Z) ->
  forall l, StronglySorted (fun a b => (key a <= key b)%Z) (array_sort compare l).
Proof.
  intros Hkey l. induction l as [|x l IH]; simpl; [constructor|].
  induction IH as [|y sorted Hs IHs Hy]; simpl; [repeat constructor|].
  rewrite Hkey. destruct (Z.leb_spec (key x - key y) 0) as [Hle | Hgt].
  - constructor; [now constructor|]. constructor; [lia|].
    eapply Forall_impl; [|exact Hy]. simpl. intros z Hz. lia.
  - constructor; [assumption|].
    apply (Permutation_Forall (Permutation_sym (sort_insert_perm compare x sorted))).
    constructor; [lia | assumption].
Qed.

(** The segments of a paragraph of the mock are ordered by the first
    index of their character value in the paragraph. *)
Lemma mock_segments_sorted (gp gt : jsstring -> jsstring) (catalog : list jsstring)
      (paragraph : jsstring) :
  StronglySorted
    (fun a b => (indexOf paragraph (text a) 0 <= indexOf paragraph (text b) 0)%Z)
    (segments (annotated_paragraph gp gt catalog paragraph)).
Proof.
  apply (array_sort_sorted (compare_segments paragraph)
                           (fun s => indexOf paragraph (text s) 0)).
  reflexivity.
Qed.

(** Among spans that do not overlap, the greedy pass accepts all. *)
Lemma accept_all (accepted candidates : list IdiomSpan) :
  NoDup (accepted ++ candidates) ->
  (forall a b, In a (accepted ++ candidates) -> In b (accepted ++ candidates) ->
               overlaps a b = true -> a = b) ->
  Spec.accept accepted candidates = accepted ++ candidates.
Proof.
  revert accepted; induction candidates as [|c rest IH]; intros accepted Hnd Hsep;
    simpl.
  - now rewrite app_nil_r.
  - destruct (existsb (overlaps c) accepted) eqn:E.
    + apply existsb_exists in E as (a & Ha & Hov).
      assert (c = a).
      { apply Hsep; [|apply in_or_app; now left | assumption].
        apply in_or_app. right. now left. }
      subst a. apply NoDup_remove_2 in Hnd.
      exfalso. apply Hnd, in_or_app. now left.
    + rewrite IH; rewrite <- app_assoc; simpl; auto.
Qed.

Lemma findSpans_separated (catalog : list jsstring) (paragraph : jsstring) :
  separated catalog = true ->
  Spec.findSpans paragraph catalog
  = array_sort Spec.compare_candidates (Spec.candidates paragraph catalog).
Proof.
  intros Hsep. unfold Spec.findSpans.
  assert (Hp := array_sort_perm Spec.compare_candidates
                                (Spec.candidates paragraph catalog)).
  apply (accept_all []); simpl.
  - apply (Permutation_NoDup (Permutation_sym Hp)). now apply candidates_NoDup.
  - intros a b Ha Hb. apply (candidates_overlap_same catalog paragraph Hsep).
    + now apply (Permutation_in _ Hp).
    + now apply (Permutation_in _ Hp).
Qed.

Lemma sampleChengyu_separated : separated sampleChengyu = true.
Proof. vm_compute. reflexivity. Qed.

(* ================================================================== *)
(** * The policy of the idiom scan *)

(** C3 as stated fails: the scan marks occurrences idiom by idiom in
    list order, not by ascending start index (in 不可思议一心一意 it
    marks the span at 4 before the span at 0, where the policy yields 0
    then 4), and it tests no overlap (with the entries 一心一意 and
    心一意不 both spans of 一心一意不 are marked, where the policy
    accepts only the one at 0). *)
Lemma scan_is_not_left_to_right_greedy :
  marked_spans sampleChengyu (js "不可思议一心一意") []
  = Normal [ {| idiom := js "一心一意"; startIndex := 4 |};
             {| idiom := js "不可思议"; startIndex := 0 |} ] /\
  Spec.findSpans (js "不可思议一心一意") sampleChengyu
  = [ {| idiom := js "不可思议"; startIndex := 0 |};
      {| idiom := js "一心一意"; startIndex := 4 |} ] /\
  marked_spans [js "一心一意"; js "心一意不"] (js "一心一意不") []
  = Normal [ {| idiom := js "一心一意"; startIndex := 0 |};
             {| idiom := js "心一意不"; startIndex := 1 |} ] /\
  Spec.findSpans (js "一心一意不") [js "一心一意"; js "心一意不"]
  = [ {| idiom := js "一心一意"; startIndex := 0 |} ].
Proof. repeat split; vm_compute; reflexivity. Qed.

(** C3 (overlap policy), amended: the mock marks every occurrence of
    every idiom of its list, idiom by idiom in list order and, within an
    idiom, by ascending start index, with no overlap test.  No two
    occurrences of the built-in idioms overlap, so the marked spans are
    exactly the spans the greedy leftmost-longest policy accepts, in
    another order: sorted by start index they are the policy's output.
    Concretely 一心一意不可思议 has the two spans at 0 and 4, which do
    not overlap, all its eight segments are idiom-marked and none is
    plain. *)
Theorem marked_spans_are_the_greedy_spans (paragraph : jsstring) :
  (exists spans,
     marked_spans sampleChengyu paragraph [] = Normal spans /\
     spans = Spec.candidates paragraph sampleChengyu /\
     Permutation spans (Spec.findSpans paragraph sampleChengyu) /\
     array_sort Spec.compare_candidates spans = Spec.findSpans paragraph sampleChengyu) /\
  marked_spans sampleChengyu (js "一心一意不可思议") []
  = Normal [ {| idiom := js "一心一意"; startIndex := 0 |};
             {| idiom := js "不可思议"; startIndex := 4 |} ] /\
  overlaps {| idiom := js "一心一意"; startIndex := 0 |}
           {| idiom := js "不可思议"; startIndex := 4 |} = false /\
  exists data,
    mockProcessTextResponse (js "一心一意不可思议") = Normal data /\
    map (fun p => map isChengyu (segments p)) (paragraphs data)
    = [[true; true; true; true; true; true; true; true]].
Proof.
  split; [|split; [|split]].
  - exists (Spec.candidates paragraph sampleChengyu).
    rewrite (findSpans_separated sampleChengyu paragraph sampleChengyu_separated).
    repeat split.
    + apply (marked_spans_candidates sampleChengyu paragraph []),
        sampleChengyu_not_empty.
    + symmetry. apply array_sort_perm.
  - vm_compute. reflexivity.
  - reflexivity.
  - eexists. split; vm_compute; reflexivity.
Qed.

(* ================================================================== *)
(** * One segment per character position *)

Lemma span_positions_In (s : IdiomSpan) (z : Z) :
  In z (span_positions s) <-> (startIndex s <= z < span_end s)%Z.
Proof.
  unfold span_positions, span_end. rewrite in_map_iff. split.
  - intros (i & <- & Hi). apply in_seq in Hi. lia.
  - intros H. exists (Z.to_nat (z - startIndex s)). split; [lia|].
    apply in_seq. lia.
Qed.

Lemma span_positions_NoDup (s : IdiomSpan) : NoDup (span_positions s).
Proof.
  unfold span_positions. apply NoDup_map_NoDup_ForallPairs; [|apply seq_NoDup].
  intros i j _ _ H. lia.
Qed.

Lemma span_positions_overlap (a b : IdiomSpan) (z : Z) :
  In z (span_positions a) -> In z (span_positions b) -> overlaps a b = true.
Proof.
  rewrite !span_positions_In. intros Ha Hb. unfold overlaps.
  apply andb_true_iff. split; apply Z.ltb_lt; lia.
Qed.

Lemma span_segments_texts (gp gt : jsstring -> jsstring) (paragraph : jsstring)
      (s : IdiomSpan) :
  map text (span_segments gp gt paragraph s)
  = map (fun z => at_index paragraph (Z.to_nat z)) (span_positions s).
Proof. unfold span_segments, span_positions. now rewrite !map_map. Qed.

Lemma unsorted_segments_texts (gp gt : jsstring -> jsstring)
      (catalog : list jsstring) (paragraph : jsstring) :
  map text (unsorted_segments gp gt catalog paragraph)
  = map (fun z => at_index paragraph (Z.to_nat z))
        (read_positions gp gt catalog paragraph).
Proof.
  unfold unsorted_segments, read_positions, idiom_segments.
  rewrite !map_app, !map_map. f_equal.
  - induction (Spec.candidates paragraph catalog) as [|sp l IH]; simpl;
      [reflexivity|].
    now rewrite !map_app, IH, span_segments_texts.
  - apply map_ext. intros i. simpl. now rewrite Nat2Z.id.
Qed.

Lemma read_positions_NoDup (gp gt : jsstring -> jsstring)
      (catalog : list jsstring) (paragraph : jsstring) :
  separated catalog = true -> NoDup (read_positions gp gt catalog paragraph).
Proof.
  intros Hsep. unfold read_positions. apply NoDup_app.
  - apply NoDup_flat_map.
    + now apply candidates_NoDup.
    + intros sp _. apply span_positions_NoDup.
    + intros a b z Ha Hb Hza Hzb.
      apply (candidates_overlap_same catalog paragraph Hsep a b Ha Hb).
      now apply (span_positions_overlap a b z).
  - apply NoDup_map_NoDup_ForallPairs.
    + intros i j _ _ H. lia.
    + apply NoDup_filter, seq_NoDup.
  - intros z Hz Hplain.
    apply in_flat_map in Hz as (sp & Hsp & Hz).
    apply in_map_iff in Hplain as (i & <- & Hi).
    apply plain_positions_In in Hi as [_ Hi]. apply Hi.
    apply in_map_iff in Hz as (k & Hk & Hkin).
    exists (chengyuInfo gp gt paragraph (idiom sp) (startIndex sp) k).
    split; [|split].
    + unfold idiom_segments. apply in_flat_map. exists sp. split; [assumption|].
      unfold span_segments. now apply in_map.
    + reflexivity.
    + simpl. now rewrite Hk, Nat2Z.id.
Qed.

(** C2 as stated fails: over 一心一意不, with the two entries 一心一意
    and 心一意不, both spans are marked although they overlap; the
    indices 1, 2 and 3 are each read into two segments, and the
    paragraph of five characters comes out with eight segments. *)
Lemma overlapping_entries_are_both_marked :
  marked_spans [js "一心一意"; js "心一意不"] (js "一心一意不") []
  = Normal [ {| idiom := js "一心一意"; startIndex := 0 |};
             {| idiom := js "心一意不"; startIndex := 1 |} ] /\
  overlaps {| idiom := js "一心一意"; startIndex := 0 |}
           {| idiom := js "心一意不"; startIndex := 1 |} = true /\
  read_positions getMockPinyin getMockTranslation
                 [js "一心一意"; js "心一意不"] (js "一心一意不")
  = [0; 1; 2; 3; 1; 2; 3; 4]%Z /\
  exists p,
    mock_paragraph [js "一心一意"; js "心一意不"] getMockPinyin getMockTranslation
                   (js "一心一意不")
    = Normal p /\
    joined p = js "一一一心心意意不".
Proof.
  split; [|split; [|split]]; try (vm_compute; reflexivity).
  eexists. split; vm_compute; reflexivity.
Qed.

(** C2 (no double processing), amended: for every paragraph and every
    idiom list whose entries are distinct, non-empty and cannot overlap
    in a text (the built-in list is one), the spans the mock marks are
    pairwise disjoint, and each of the segments it collects takes its
    character from a paragraph index of its own: no index is read into
    two segments.  The segments of the result are those segments in
    sorted order. *)
Theorem separated_catalog_reads_each_position_once
        (gp gt : jsstring -> jsstring) (catalog : list jsstring) (paragraph : jsstring) :
  separated catalog = true ->
  exists spans segs p,
    marked_spans catalog paragraph [] = Normal spans /\
    NoDup spans /\
    (forall a b, In a spans -> In b spans -> a <> b -> overlaps a b = false) /\
    collect_segments catalog gp gt paragraph = Normal segs /\
    map text segs
    = map (fun z => at_index paragraph (Z.to_nat z))
          (read_positions gp gt catalog paragraph) /\
    NoDup (read_positions gp gt catalog paragraph) /\
    mock_paragraph catalog gp gt paragraph = Normal p /\
    Permutation (segments p) segs.
Proof.
  intros Hsep.
  destruct (separated_spec catalog Hsep) as (_ & Hne & _).
  exists (Spec.candidates paragraph catalog),
         (unsorted_segments gp gt catalog paragraph),
         (annotated_paragraph gp gt catalog paragraph).
  split; [|split; [|split; [|split; [|split; [|split; [|split]]]]]].
  - now apply (marked_spans_candidates catalog paragraph []).
  - now apply candidates_NoDup.
  - intros a b Ha Hb Hab. destruct (overlaps a b) eqn:E; [|reflexivity].
    exfalso. apply Hab. now apply (candidates_overlap_same catalog paragraph Hsep).
  - now apply collect_segments_spec.
  - apply unsorted_segments_texts.
  - now apply read_positions_NoDup.
  - now apply mock_paragraph_spec.
  - apply array_sort_perm.
Qed.

(** The built-in list, on a paragraph with two idioms and two plain
    characters. *)
Lemma separated_catalog_reads_each_position_once_witness :
  separated sampleChengyu = true /\
  exists spans segs p,
    marked_spans sampleChengyu (js "好一心一意不可思议了") [] = Normal spans /\
    NoDup spans /\
    (forall a b, In a spans -> In b spans -> a <> b -> overlaps a b = false) /\
    collect_segments sampleChengyu getMockPinyin getMockTranslation
                     (js "好一心一意不可思议了") = Normal segs /\
    map text segs
    = map (fun z => at_index (js "好一心一意不可思议了") (Z.to_nat z))
          (read_positions getMockPinyin getMockTranslation sampleChengyu
                          (js "好一心一意不可思议了")) /\
    NoDup (read_positions getMockPinyin getMockTranslation sampleChengyu
                          (js "好一心一意不可思议了")) /\
    mock_paragraph sampleChengyu getMockPinyin getMockTranslation
                   (js "好一心一意不可思议了") = Normal p /\
    Permutation (segments p) segs.
Proof.
  split; [vm_compute; reflexivity|].
  apply (separated_catalog_reads_each_position_once
           getMockPinyin getMockTranslation sampleChengyu (js "好一心一意不可思议了")).
  vm_compute. reflexivity.
Defined.

(* ================================================================== *)
(** * Further properties of the segmentation *)

Lemma split_pieces_concat (s : jsstring) :
  (forall cur, concat (split_piece cur s)
               = cur ++ filter (fun c => negb (is_newline c)) s) /\
  concat (split_run s) = filter (fun c => negb (is_newline c)) s.
Proof.
  induction s as [|c s [IHp IHr]]; split; simpl.
  - intros cur. now rewrite !app_nil_r.
  - reflexivity.
  - intros cur. destruct (is_newline c); simpl.
    + now rewrite IHr.
    + now rewrite IHp, <- app_assoc.
  - destruct (is_newline c); simpl; [assumption|]. now rewrite IHp.
Qed.

Lemma split_newlines_concat (text : jsstring) :
  concat (split_newlines text) = filter (fun c => negb (is_newline c)) text.
Proof. destruct (split_pieces_concat text) as [Hp _]. apply (Hp []). Qed.

(** X1. Splitting drops the newline characters and nothing else: the pieces,
    put end to end, are the text without its newlines. *)
Theorem split_drops_only_newlines (text : jsstring) :
  concat (split_newlines text) = filter (fun c => negb (is_newline c)) text.
Proof. apply split_newlines_concat. Qed.

Lemma newline_is_white_space (c : code_unit) :
  is_newline c = true -> is_white_space c = true.
Proof.
  unfold is_newline. intros H. apply N.eqb_eq in H. now subst.
Qed.

Lemma split_pieces_of_text (text p : jsstring) (c : code_unit) :
  In p (split_newlines text) -> In c p -> In c text.
Proof.
  intros Hp Hc.
  destruct (split_pieces_Forall (fun x => In x text) text) as [H _].
  { apply Forall_forall. auto. }
  specialize (H [] (Forall_nil _)). fold (split_newlines text) in H.
  rewrite Forall_forall in H. specialize (H p Hp).
  rewrite Forall_forall in H. now apply H.
Qed.

Lemma visible_characters_kept (text : jsstring) (c : code_unit) :
  (In c text /\ is_white_space c = false) <->
  (exists p, In p (split_paragraphs text) /\ In c p /\ is_white_space c = false).
Proof.
  rewrite split_paragraphs_filter. split.
  - intros [Hin Hws].
    assert (Hc : In c (concat (split_newlines text))).
    { rewrite split_newlines_concat. apply filter_In. split; [assumption|].
      destruct (is_newline c) eqn:E; [|reflexivity].
      apply newline_is_white_space in E. congruence. }
    apply in_concat in Hc as (p & Hp & Hcp).
    exists p. repeat split; try assumption.
    apply filter_In. split; [assumption|].
    apply negb_true_iff. destruct (forallb is_white_space p) eqn:E; [|reflexivity].
    rewrite forallb_forall in E. specialize (E c Hcp). congruence.
  - intros (p & Hp & Hcp & Hws). apply filter_In in Hp as [Hp _].
    split; [|assumption]. now apply (split_pieces_of_text text p).
Qed.

(** X2. The code units that are not white space are exactly those of the
    paragraphs: segmentation loses no visible character and invents
    none. *)
Theorem paragraphs_hold_the_visible_characters (text : jsstring) (c : code_unit) :
  (In c text /\ is_white_space c = false) <->
  (exists p, In p (split_paragraphs text) /\ In c p /\ is_white_space c = false).
Proof. apply visible_characters_kept. Qed.

Lemma split_paragraphs_nil_iff (text : jsstring) :
  split_paragraphs text = [] <-> blank text.
Proof.
  split; [|apply split_paragraphs_blank].
  intros H. apply Forall_forall. intros c Hc.
  destruct (is_white_space c) eqn:E; [reflexivity|].
  destruct (proj1 (visible_characters_kept text c) (conj Hc E))
    as (p & Hp & _).
  rewrite H in Hp. contradiction.
Qed.

(** X3. Both pipelines return no paragraph exactly for the texts made of
    white space and newlines only. *)
Theorem no_paragraph_iff_blank (text : jsstring) :
  (exists data, mockProcessTextResponse text = Normal data /\
                (paragraphs data = [] <-> blank text)) /\
  (exists data, Server.processChineseText text = Normal data /\
                (paragraphs data = [] <-> blank text)).
Proof.
  split.
  - eexists. split; [apply mockProcessTextResponse_returns|]. simpl.
    rewrite <- split_paragraphs_nil_iff. split; intros H.
    + now apply map_eq_nil in H.
    + now rewrite H.
  - eexists. split; [apply server_processChineseText|]. simpl.
    rewrite <- split_paragraphs_nil_iff. split; intros H.
    + now apply map_eq_nil in H.
    + now rewrite H.
Qed.

(* ================================================================== *)
(** * Further properties of the server *)

(** X4. For every text the server returns, per paragraph, exactly one
    segment per code unit, in index order: the segments spell the
    paragraph, and each carries the two placeholders and no completed
    idiom. *)
Theorem server_one_segment_per_code_unit (text : jsstring) :
  exists data,
    Server.processChineseText text = Normal data /\
    original data = text /\
    Forall (fun p =>
              joined p = paragraph_text p /\
              length (segments p) = length (paragraph_text p) /\
              Forall (fun s => pinyin s = js "pīnyīn" /\
                               translation s = js "translation" /\
                               chengyuComplete s = FieldAbsent)
                     (segments p))
           (paragraphs data).
Proof.
  eexists. split; [apply server_processChineseText|]. split; [reflexivity|]. simpl.
  apply Forall_map, Forall_forall. intros p _. simpl. split; [|split].
  - unfold joined. simpl. rewrite map_map. apply concat_at_index.
  - now rewrite length_map, length_seq.
  - apply Forall_map, Forall_forall. intros i _. repeat split.
Qed.

Lemma chengyu_starts_at_iff (catalog : list jsstring) (paragraph : jsstring) (i : nat) :
  Server.chengyu_starts_at catalog paragraph i = true <->
  exists cy, In cy catalog /\ i + length cy <= length paragraph /\
             starts_with cy (skipn i paragraph) = true.
Proof.
  induction catalog as [|cy catalog IH]; simpl.
  - split; [discriminate | intros (cy & [] & _)].
  - assert (Hsub : str_eqb (substring paragraph i (i + length cy)) cy = true <->
                   starts_with cy (skipn i paragraph) = true).
    { unfold substring. replace (i + length cy - i) with (length cy) by lia.
      now rewrite str_eqb_eq, starts_with_firstn. }
    destruct (Nat.leb_spec (i + length cy) (length paragraph)) as [Hle | Hgt].
    + destruct (str_eqb (substring paragraph i (i + length cy)) cy) eqn:E.
      * split; [|reflexivity]. intros _. exists cy.
        repeat split; [now left | assumption | now apply Hsub].
      * rewrite IH. split.
        -- intros (cy' & Hin & H). exists cy'. split; [now right | assumption].
        -- intros (cy' & [<- | Hin] & Hlen & Hs).
           ++ apply Hsub in Hs. congruence.
           ++ now exists cy'.
    + rewrite IH. split.
      * intros (cy' & Hin & H). exists cy'. split; [now right | assumption].
      * intros (cy' & [<- | Hin] & Hlen & Hs); [lia | now exists cy'].
Qed.

(** X5. [checkIfChengyu] answers [true] at a position exactly when the mock
    marks a span that starts there: the server flags the first
    character of each occurrence of a listed idiom and no other
    position; at the last three positions of a paragraph the answer is
    always [false]. *)
Theorem server_flag_is_span_start (paragraph : jsstring) (position : nat) :
  exists flagged spans,
    Server.checkIfChengyu paragraph position = Normal flagged /\
    marked_spans sampleChengyu paragraph [] = Normal spans /\
    (flagged = true <->
     exists span, In span spans /\ startIndex span = Z.of_nat position) /\
    (length paragraph < position + 4 -> flagged = false).
Proof.
  exists (Server.chengyu_starts_at Server.sampleChengyu paragraph position),
         (Spec.candidates paragraph sampleChengyu).
  split; [reflexivity|]. split.
  { apply (marked_spans_candidates sampleChengyu paragraph []),
      sampleChengyu_not_empty. }
  change Server.sampleChengyu with sampleChengyu.
  assert (Hiff : Server.chengyu_starts_at sampleChengyu paragraph position = true <->
                 exists span, In span (Spec.candidates paragraph sampleChengyu) /\
                              startIndex span = Z.of_nat position).
  { rewrite chengyu_starts_at_iff. split.
    - intros (cy & Hin & Hlen & Hs).
      exists {| idiom := cy; startIndex := Z.of_nat position |}.
      split; [|reflexivity]. apply candidates_In. simpl. split; [assumption|].
      exists position. repeat split; try assumption.
      assert (cy <> []).
      { pose proof sampleChengyu_not_empty as Hne. rewrite Forall_forall in Hne.
        now apply Hne. }
      destruct cy; [contradiction | simpl in Hlen; lia].
    - intros (span & Hin & Hstart). apply candidates_In in Hin
        as (Hcy & k & Hk & Hlt & Hs).
      assert (k = position) by lia. subst k.
      exists (idiom span). repeat split; try assumption.
      apply starts_with_length in Hs. rewrite length_skipn in Hs. lia. }
  split; [exact Hiff|].
  intros Hshort.
  destruct (Server.chengyu_starts_at sampleChengyu paragraph position) eqn:E;
    [|reflexivity].
  apply chengyu_starts_at_iff in E as (cy & Hin & Hlen & _).
  assert (length cy = 4).
  { simpl in Hin. repeat (destruct Hin as [<- | Hin]; [reflexivity|]). contradiction. }
  lia.
Qed.


(* ================================================================== *)
(** * The client against the route *)

Lemma processText_served_by_route (text : jsstring) :
  processText served_by_route text
  = match text with
    | [] => Normal {| original := []; paragraphs := [] |}
    | _ :: _ => Server.processChineseText text
    end.
Proof.
  destruct text as [|c s]; [reflexivity|].
  unfold processText, served_by_route, Server.api_process.
  rewrite server_processChineseText. reflexivity.
Qed.


(* ================================================================== *)
(** * Further properties of the mock *)

Lemma or_default_not_empty (value : option jsstring) (fallback : jsstring) :
  fallback <> [] -> or_default value fallback <> [].
Proof. intros H. destruct value as [[|c v]|]; simpl; congruence. Qed.

Lemma occurrence_unit (paragraph cy : jsstring) (k i : nat) :
  starts_with cy (skipn k paragraph) = true -> i < length cy ->
  exists c, nth_error cy i = Some c /\ nth_error paragraph (k + i) = Some c /\
            at_index paragraph (k + i) = [c].
Proof.
  intros Hs Hi. apply starts_with_app in Hs as [rest Hs].
  destruct (nth_error cy i) as [c|] eqn:E; [|apply nth_error_None in E; lia].
  exists c. split; [reflexivity|].
  assert (Hn : nth_error paragraph (k + i) = Some c).
  { rewrite <- (firstn_skipn k paragraph) at 1.
    assert (Hk : k <= length paragraph).
    { destruct (Nat.le_gt_cases k (length paragraph)) as [|Hgt]; [assumption|].
      rewrite skipn_all2 in Hs by lia. destruct cy; [simpl in Hi; lia | discriminate]. }
    rewrite nth_error_app2 by (rewrite length_firstn; lia).
    rewrite length_firstn, Nat.min_l by assumption.
    replace (k + i - k) with i by lia.
    rewrite Hs, nth_error_app1 by assumption. exact E. }
  split; [exact Hn|]. unfold at_index. now rewrite Hn.
Qed.

Lemma last_unit_suffix (cy : jsstring) (c : code_unit) :
  nth_error cy (length cy - 1) = Some c -> exists front, cy = front ++ [c].
Proof.
  intros H. apply nth_error_split in H as (front & back & Hcy & Hlen).
  exists front. rewrite Hcy in Hlen |- *. rewrite length_app in Hlen. simpl in Hlen.
  destruct back; [reflexivity | simpl in Hlen; lia].
Qed.

Lemma getMockPinyin_not_empty (char : jsstring) : getMockPinyin char <> [].
Proof. apply or_default_not_empty. discriminate. Qed.

Lemma getMockTranslation_not_empty (char : jsstring) : getMockTranslation char <> [].
Proof. apply or_default_not_empty. discriminate. Qed.

Lemma idiom_segment_ok (paragraph : jsstring) (s : charInfo) :
  In s (idiom_segments getMockPinyin getMockTranslation sampleChengyu paragraph) ->
  mock_segment_ok paragraph s.
Proof.
  unfold idiom_segments. intros H.
  apply in_flat_map in H as (sp & Hsp & Hs).
  apply candidates_In in Hsp as (Hcy & k & Hk & Hlt & Hst).
  unfold span_segments in Hs. apply in_map_iff in Hs as (i & <- & Hi).
  apply in_seq in Hi. rewrite Hk.
  destruct (occurrence_unit paragraph (idiom sp) k i Hst) as (c & Hc & Hn & Hat);
    [lia|].
  unfold mock_segment_ok, chengyuInfo. simpl.
  replace (Z.to_nat (Z.of_nat k + Z.of_nat i)) with (k + i) by lia.
  split; [|split; [|split; [|split; [|split; [|split]]]]].
  - exists c. split; [now apply nth_error_In in Hn | assumption].
  - reflexivity.
  - reflexivity.
  - apply getMockPinyin_not_empty.
  - apply getMockTranslation_not_empty.
  - split; [discriminate|]. now destruct (i =? length (idiom sp) - 1).
  - intros cy Hcomplete.
    destruct (Nat.eqb_spec i (length (idiom sp) - 1)) as [-> | _]; [|discriminate].
    injection Hcomplete as <-. split; [reflexivity|]. split; [assumption|].
    rewrite Hat. now apply last_unit_suffix.
Qed.

Lemma plain_segment_ok (paragraph : jsstring) (i : nat) :
  i < length paragraph ->
  mock_segment_ok paragraph (plainInfo getMockPinyin getMockTranslation paragraph i).
Proof.
  intros Hi. destruct (at_index_in_range paragraph i Hi) as (c & Hn & Hat).
  unfold mock_segment_ok, plainInfo. simpl.
  split; [|split; [|split; [|split; [|split; [|split]]]]].
  - exists c. split; [now apply nth_error_In in Hn | assumption].
  - reflexivity.
  - reflexivity.
  - apply getMockPinyin_not_empty.
  - apply getMockTranslation_not_empty.
  - split; reflexivity.
  - discriminate.
Qed.

Lemma unsorted_segment_ok (paragraph : jsstring) (s : charInfo) :
  In s (unsorted_segments getMockPinyin getMockTranslation sampleChengyu paragraph) ->
  mock_segment_ok paragraph s.
Proof.
  unfold unsorted_segments. intros H. apply in_app_or in H as [H | H].
  - now apply idiom_segment_ok.
  - apply in_map_iff in H as (i & <- & Hi).
    apply filter_In in Hi as [Hi _]. apply in_seq in Hi.
    apply plain_segment_ok. lia.
Qed.

(** X8. Every segment the mock returns is well formed: one code unit of its
    paragraph as text, the two lookups of that text, never empty, as
    pinyin and translation, [chengyuComplete] present exactly on idiom
    segments, and a completed idiom only on the segment of its last
    character. *)
Theorem mock_segments_are_well_formed (text : jsstring) :
  exists data,
    mockProcessTextResponse text = Normal data /\
    Forall (fun p => Forall (mock_segment_ok (paragraph_text p)) (segments p))
           (paragraphs data).
Proof.
  eexists. split; [apply mockProcessTextResponse_returns|]. simpl.
  apply Forall_map, Forall_forall. intros p _. simpl.
  apply Forall_forall. intros s Hs. apply unsorted_segment_ok.
  exact (Permutation_in _ (array_sort_perm (compare_segments p) _) Hs).
Qed.

(** X9. The segments of every paragraph the mock returns are in ascending
    order of [paragraph.indexOf(segment.text)], the first index of their
    character in the paragraph. *)
Theorem mock_orders_segments_by_first_index (raw : jsstring) :
  exists data,
    mockProcessTextResponse raw = Normal data /\
    Forall (fun p =>
              StronglySorted
                (fun a b => (indexOf (paragraph_text p) (text a) 0
                             <= indexOf (paragraph_text p) (text b) 0)%Z)
                (segments p))
           (paragraphs data).
Proof.
  eexists. split; [apply mockProcessTextResponse_returns|]. simpl.
  apply Forall_map, Forall_forall. intros p _. apply mock_segments_sorted.
Qed.

Lemma read_positions_in_range (gp gt : jsstring -> jsstring) (catalog : list jsstring)
      (paragraph : jsstring) (z : Z) :
  In z (read_positions gp gt catalog paragraph) ->
  (0 <= z < Z.of_nat (length paragraph))%Z.
Proof.
  unfold read_positions. intros H. apply in_app_or in H as [H | H].
  - apply in_flat_map in H as (sp & Hsp & Hz).
    apply candidates_In in Hsp as (_ & k & Hk & Hlt & Hs).
    apply span_positions_In in Hz. unfold span_end in Hz.
    apply starts_with_length in Hs. rewrite length_skipn in Hs. lia.
  - apply in_map_iff in H as (i & <- & Hi).
    apply filter_In in Hi as [Hi _]. apply in_seq in Hi. lia.
Qed.

Lemma unsorted_segments_length (gp gt : jsstring -> jsstring) (catalog : list jsstring)
      (paragraph : jsstring) :
  length (unsorted_segments gp gt catalog paragraph)
  = length (read_positions gp gt catalog paragraph).
Proof.
  rewrite <- (length_map text), unsorted_segments_texts. apply length_map.
Qed.

Lemma unsorted_segments_bound (gp gt : jsstring -> jsstring) (catalog : list jsstring)
      (paragraph : jsstring) :
  separated catalog = true ->
  length (unsorted_segments gp gt catalog paragraph) <= length paragraph.
Proof.
  intros Hsep. rewrite unsorted_segments_length.
  apply Nat.le_trans with (length (map Z.of_nat (seq 0 (length paragraph)))).
  - apply NoDup_incl_length; [now apply read_positions_NoDup|].
    intros z Hz. apply read_positions_in_range in Hz.
    apply in_map_iff. exists (Z.to_nat z). split; [lia|]. apply in_seq. lia.
  - rewrite length_map, length_seq. lia.
Qed.

(** Whatever the list of idioms, each index of the paragraph either is
    pushed by the second loop or has its character among the idiom
    segments. *)
Lemma unsorted_segments_cover (gp gt : jsstring -> jsstring) (catalog : list jsstring)
      (paragraph : jsstring) (i : nat) :
  i < length paragraph ->
  exists s, In s (unsorted_segments gp gt catalog paragraph) /\
            text s = at_index paragraph i.
Proof.
  intros Hi. unfold unsorted_segments.
  destruct (already_chengyu (idiom_segments gp gt catalog paragraph)
                            (at_index paragraph i)) eqn:E.
  - apply already_chengyu_iff in E as (s & Hs & _ & Ht).
    exists s. split; [apply in_or_app; now left | assumption].
  - exists (plainInfo gp gt paragraph i). split; [|reflexivity].
    apply in_or_app. right. apply in_map. unfold plain_positions.
    apply filter_In. split; [apply in_seq; lia | now rewrite E].
Qed.

(** X10. The mock loses positions but never a character value, and adds
    nothing: per paragraph the texts of the segments are exactly the
    code units that occur in the paragraph, and there are never more
    segments than code units. *)
Theorem mock_keeps_every_character_value (raw : jsstring) :
  exists data,
    mockProcessTextResponse raw = Normal data /\
    Forall (fun p =>
              length (segments p) <= length (paragraph_text p) /\
              forall c, In c (paragraph_text p) <->
                        exists s, In s (segments p) /\ text s = [c])
           (paragraphs data).
Proof.
  eexists. split; [apply mockProcessTextResponse_returns|]. simpl.
  apply Forall_map, Forall_forall. intros p _. simpl.
  pose proof (array_sort_perm (compare_segments p)
                (unsorted_segments getMockPinyin getMockTranslation sampleChengyu p))
    as Hperm.
  split.
  - rewrite (Permutation_length Hperm).
    apply unsorted_segments_bound, sampleChengyu_separated.
  - intros c. split.
    + intros Hc. apply In_nth_error in Hc as [i Hi].
      assert (Hlt : i < length p) by (apply nth_error_Some; congruence).
      destruct (unsorted_segments_cover getMockPinyin getMockTranslation
                                        sampleChengyu p i Hlt) as (s & Hs & Ht).
      exists s. split.
      * exact (Permutation_in _ (Permutation_sym Hperm) Hs).
      * rewrite Ht. unfold at_index. now rewrite Hi.
    + intros (s & Hs & Ht).
      apply (Permutation_in _ Hperm) in Hs. apply unsorted_segment_ok in Hs.
      destruct Hs as ((c' & Hc' & Ht') & _). congruence.
Qed.

(* ------------------------------------------------------------------ *)
(** ** Paragraphs without any listed idiom *)

Lemma no_idiom_no_candidate (catalog : list jsstring) (paragraph : jsstring) :
  Forall (fun cy => cy <> []) catalog ->
  (forall cy, In cy catalog -> includes paragraph cy = false) ->
  Spec.candidates paragraph catalog = [].
Proof.
  intros Hne Hno. unfold Spec.candidates.
  induction Hne as [|cy catalog Hcy Hne IH]; simpl; [reflexivity|].
  rewrite (includes_occurrences paragraph cy Hcy) by (apply Hno; now left).
  simpl. apply IH. intros cy' Hin. apply Hno. now right.
Qed.

Lemma plain_positions_nil (paragraph : jsstring) :
  plain_positions paragraph [] = seq 0 (length paragraph).
Proof.
  unfold plain_positions. generalize (seq 0 (length paragraph)). intros l.
  induction l as [|i l IH]; simpl; [reflexivity | now f_equal].
Qed.

(** X11. A paragraph that includes none of the listed idioms comes back with
    exactly one plain segment per index: the segments are those of the
    indices [0 .. length-1] in some order, so the output spells a
    rearrangement of the paragraph. *)
Theorem mock_without_idiom_rearranges (paragraph : jsstring) :
  (forall cy, In cy sampleChengyu -> includes paragraph cy = false) ->
  exists p,
    mock_paragraph sampleChengyu getMockPinyin getMockTranslation paragraph = Normal p /\
    Permutation (segments p)
                (map (plainInfo getMockPinyin getMockTranslation paragraph)
                     (seq 0 (length paragraph))) /\
    Forall (fun s => isChengyu s = false) (segments p) /\
    Permutation (joined p) paragraph.
Proof.
  intros Hno. eexists. split.
  { apply mock_paragraph_spec, sampleChengyu_not_empty. }
  assert (Hu : unsorted_segments getMockPinyin getMockTranslation sampleChengyu paragraph
               = map (plainInfo getMockPinyin getMockTranslation paragraph)
                     (seq 0 (length paragraph))).
  { unfold unsorted_segments, idiom_segments.
    rewrite (no_idiom_no_candidate sampleChengyu paragraph sampleChengyu_not_empty Hno).
    simpl. now rewrite plain_positions_nil. }
  set (plain := map (plainInfo getMockPinyin getMockTranslation paragraph)
                    (seq 0 (length paragraph))) in *.
  assert (Hseg : segments (annotated_paragraph getMockPinyin getMockTranslation
                                               sampleChengyu paragraph)
                 = array_sort (compare_segments paragraph) plain).
  { simpl. now rewrite Hu. }
  pose proof (array_sort_perm (compare_segments paragraph) plain) as Hperm.
  unfold joined. rewrite Hseg.
  split; [exact Hperm|]. split.
  - apply (Permutation_Forall (Permutation_sym Hperm)).
    apply Forall_map, Forall_forall. reflexivity.
  - assert (Hplain : concat (map text plain) = paragraph).
    { unfold plain. rewrite map_map. apply concat_at_index. }
    rewrite <- Hplain at 2. rewrite <- !flat_map_concat_map.
    apply Permutation_flat_map. exact Hperm.
Qed.

(** 你好你 includes no listed idiom. *)
Lemma mock_without_idiom_rearranges_witness :
  exists p,
    mock_paragraph sampleChengyu getMockPinyin getMockTranslation (js "你好你")
    = Normal p /\
    Permutation (segments p)
                (map (plainInfo getMockPinyin getMockTranslation (js "你好你"))
                     (seq 0 (length (js "你好你")))) /\
    Forall (fun s => isChengyu s = false) (segments p) /\
    Permutation (joined p) (js "你好你").
Proof.
  apply (mock_without_idiom_rearranges (js "你好你")).
  intros cy Hin. simpl in Hin.
  repeat (destruct Hin as [<- | Hin]; [vm_compute; reflexivity|]). contradiction.
Defined.

(* ------------------------------------------------------------------ *)
(** ** Paragraphs without a repeated character *)

Lemma search_unit (c : code_unit) (front back : jsstring) (k : nat) :
  ~ In c front -> search [c] (front ++ c :: back) k = Some (k + length front).
Proof.
  revert k; induction front as [|x front IH]; intros k Hnot; simpl.
  - replace (unit_eqb c c) with true by (symmetry; now apply unit_eqb_eq).
    simpl. f_equal. lia.
  - replace (unit_eqb c x) with false.
    + simpl. rewrite IH; [f_equal; lia|]. intros H. apply Hnot. now right.
    + symmetry. destruct (unit_eqb c x) eqn:E; [|reflexivity].
      apply unit_eqb_eq in E. subst x. exfalso. apply Hnot. now left.
Qed.

(** In a paragraph without repeats, the first index of the character at
    [i] is [i]. *)
Lemma indexOf_at_index (paragraph : jsstring) (i : nat) :
  NoDup paragraph -> i < length paragraph ->
  indexOf paragraph (at_index paragraph i) 0 = Z.of_nat i.
Proof.
  intros Hnd Hi. unfold at_index, indexOf.
  destruct (nth_error paragraph i) as [c|] eqn:E; [|apply nth_error_None in E; lia].
  apply nth_error_split in E as (front & back & Hp & Hlen).
  replace (Z.to_nat (Z.min (Z.max 0 0) (Z.of_nat (length paragraph)))) with 0 by lia.
  simpl skipn. rewrite Hp in Hnd |- *.
  rewrite search_unit.
  - simpl. now rewrite Hlen.
  - apply NoDup_remove_2 in Hnd. intros H. apply Hnd, in_or_app. now left.
Qed.

Lemma sorted_permutation_unique (l1 l2 : list Z) :
  StronglySorted Z.le l1 -> StronglySorted Z.le l2 -> Permutation l1 l2 -> l1 = l2.
Proof.
  intros H1; revert l2; induction H1 as [|x l1 Hs1 IH Hx]; intros l2 H2 Hperm.
  - apply Permutation_nil in Hperm. now subst.
  - destruct H2 as [|y l2 Hs2 Hy].
    + apply Permutation_sym, Permutation_nil in Hperm. discriminate.
    + assert (x = y).
      { assert (Hxin : In x (y :: l2)) by (apply (Permutation_in _ Hperm); now left).
        assert (Hyin : In y (x :: l1))
          by (apply (Permutation_in _ (Permutation_sym Hperm)); now left).
        rewrite Forall_forall in Hx, Hy.
        destruct Hxin as [-> | Hxin]; [reflexivity|].
        destruct Hyin as [-> | Hyin]; [reflexivity|].
        specialize (Hx y Hyin). specialize (Hy x Hxin). lia. }
      subst y. f_equal. apply IH; [assumption|].
      now apply Permutation_cons_inv in Hperm.
Qed.

Lemma seq_sorted (start len : nat) :
  StronglySorted Z.le (map Z.of_nat (seq start len)).
Proof.
  revert start; induction len as [|len IH]; intros start; simpl; constructor.
  - apply IH.
  - apply Forall_map, Forall_forall. intros k Hk. apply in_seq in Hk. lia.
Qed.

Lemma sorted_by_key_map {A : Type} (key : A -> Z) (l : list A) :
  StronglySorted (fun a b => (key a <= key b)%Z) l ->
  StronglySorted Z.le (map key l).
Proof.
  induction 1 as [|x l Hs IH Hx]; simpl; constructor; [assumption|].
  now apply Forall_map.
Qed.

Section NoRepeat.

Variables gp gt : jsstring -> jsstring.
Variable catalog : list jsstring.
Variable paragraph : jsstring.
Hypothesis catalog_separated : separated catalog = true.
Hypothesis no_repeat : NoDup paragraph.

Lemma read_positions_cover (i : nat) :
  i < length paragraph -> In (Z.of_nat i) (read_positions gp gt catalog paragraph).
Proof.
  intros Hi.
  pose proof (unsorted_segments_texts gp gt catalog paragraph) as Ht.
  destruct (unsorted_segments_cover gp gt catalog paragraph i Hi) as (s & Hs & Hsi).
  assert (Hin : In (text s) (map (fun z => at_index paragraph (Z.to_nat z))
                                 (read_positions gp gt catalog paragraph))).
  { rewrite <- Ht. now apply in_map. }
  apply in_map_iff in Hin as (z & Hz & Hzin).
  pose proof (read_positions_in_range gp gt catalog paragraph z Hzin) as Hrange.
  assert (Heq : Z.of_nat (Z.to_nat z) = Z.of_nat i).
  { rewrite <- (indexOf_at_index paragraph (Z.to_nat z)) by (assumption || lia).
    rewrite <- (indexOf_at_index paragraph i) by assumption.
    now rewrite Hz, Hsi. }
  replace (Z.of_nat i) with z by lia. assumption.
Qed.

Lemma read_positions_all :
  Permutation (read_positions gp gt catalog paragraph)
              (map Z.of_nat (seq 0 (length paragraph))).
Proof.
  apply NoDup_Permutation.
  - now apply read_positions_NoDup.
  - apply NoDup_map_NoDup_ForallPairs; [|apply seq_NoDup]. intros i j _ _ H. lia.
  - intros z. split.
    + intros Hz. apply read_positions_in_range in Hz.
      apply in_map_iff. exists (Z.to_nat z). split; [lia|]. apply in_seq. lia.
    + intros Hz. apply in_map_iff in Hz as (i & <- & Hi). apply in_seq in Hi.
      apply read_positions_cover. lia.
Qed.

(** Each segment's sort key is the index it was read from. *)
Lemma segment_key (s : charInfo) :
  In s (unsorted_segments gp gt catalog paragraph) ->
  (0 <= indexOf paragraph (text s) 0 < Z.of_nat (length paragraph))%Z /\
  text s = at_index paragraph (Z.to_nat (indexOf paragraph (text s) 0)).
Proof.
  intros Hs.
  assert (Hin : In (text s) (map (fun z => at_index paragraph (Z.to_nat z))
                                 (read_positions gp gt catalog paragraph))).
  { rewrite <- unsorted_segments_texts. now apply in_map. }
  apply in_map_iff in Hin as (z & Hz & Hzin).
  apply read_positions_in_range in Hzin.
  rewrite <- Hz. rewrite indexOf_at_index by (assumption || lia).
  rewrite Nat2Z.id. split; [lia | reflexivity].
Qed.

Lemma unsorted_keys :
  map (fun s => indexOf paragraph (text s) 0) (unsorted_segments gp gt catalog paragraph)
  = read_positions gp gt catalog paragraph.
Proof.
  rewrite <- (map_map text (fun t => indexOf paragraph t 0)).
  rewrite unsorted_segments_texts, map_map.
  rewrite <- (map_id (read_positions gp gt catalog paragraph)) at 2.
  apply map_ext_in. intros z Hz. apply read_positions_in_range in Hz.
  rewrite indexOf_at_index by (assumption || lia). lia.
Qed.

Lemma annotated_paragraph_round_trip :
  joined (annotated_paragraph gp gt catalog paragraph) = paragraph /\
  length (segments (annotated_paragraph gp gt catalog paragraph)) = length paragraph.
Proof.
  set (key := fun s : charInfo => indexOf paragraph (text s) 0).
  set (sorted := segments (annotated_paragraph gp gt catalog paragraph)).
  assert (Hperm : Permutation sorted (unsorted_segments gp gt catalog paragraph))
    by apply array_sort_perm.
  assert (Hkeys : map key sorted = map Z.of_nat (seq 0 (length paragraph))).
  { apply sorted_permutation_unique.
    - apply sorted_by_key_map. apply mock_segments_sorted.
    - apply seq_sorted.
    - rewrite (Permutation_map key Hperm). unfold key. rewrite unsorted_keys.
      apply read_positions_all. }
  assert (Htexts : map text sorted = map (at_index paragraph) (seq 0 (length paragraph))).
  { transitivity (map (fun z => at_index paragraph (Z.to_nat z)) (map key sorted)).
    - rewrite map_map. apply map_ext_in. intros s Hs.
      apply (Permutation_in _ Hperm) in Hs. now apply segment_key.
    - rewrite Hkeys, map_map. apply map_ext. intros i. now rewrite Nat2Z.id. }
  split.
  - unfold joined. fold sorted. rewrite Htexts. apply concat_at_index.
  - fold sorted. rewrite <- (length_map text), Htexts, length_map. apply length_seq.
Qed.

End NoRepeat.

(** X12. When no paragraph of the text has a repeated character, the mock
    keeps the round trip: every paragraph comes back with one segment
    per code unit, and its segments spell it, idioms included. *)
Theorem mock_round_trip_without_repeats (raw : jsstring) :
  Forall (fun p => NoDup p) (split_paragraphs raw) ->
  exists data,
    mockProcessTextResponse raw = Normal data /\
    Forall (fun p => joined p = paragraph_text p /\
                     length (segments p) = length (paragraph_text p))
           (paragraphs data).
Proof.
  intros Hnd. eexists. split; [apply mockProcessTextResponse_returns|]. simpl.
  apply Forall_map. eapply Forall_impl; [|exact Hnd]. intros p Hp. simpl.
  apply (annotated_paragraph_round_trip getMockPinyin getMockTranslation
                                        sampleChengyu p sampleChengyu_separated Hp).
Qed.

(** 不可思议, an idiom without a repeated character, between two plain
    characters. *)
Lemma mock_round_trip_without_repeats_witness :
  exists data,
    mockProcessTextResponse (js "你不可思议好") = Normal data /\
    Forall (fun p => joined p = paragraph_text p /\
                     length (segments p) = length (paragraph_text p))
           (paragraphs data).
Proof.
  apply (mock_round_trip_without_repeats (js "你不可思议好")).
  vm_compute. repeat constructor; simpl; intuition discriminate.
Defined.

(* ================================================================== *)
(** * The [while] loop of the idiom scan *)

Lemma filter_seq_sorted (f : nat -> bool) (start len : nat) :
  StronglySorted lt (filter f (seq start len)).
Proof.
  revert start; induction len as [|len IH]; intros start; simpl; [constructor|].
  destruct (f start); [|apply IH]. constructor; [apply IH|].
  apply Forall_forall. intros k Hk. apply filter_In in Hk as [Hk _].
  apply in_seq in Hk. lia.
Qed.

(** X13. For every idiom that is not the empty string the loop ends, also
    with more fuel than it is given, and [indices] then holds, in
    ascending order and once each, exactly the indices at which the
    idiom occurs in the paragraph. *)
Theorem idiom_loop_collects_every_occurrence (paragraph cy : jsstring) (extra : nat) :
  cy <> [] ->
  exists indices,
    collect_indices (length paragraph + 2 + extra) paragraph cy
                    (indexOf paragraph cy 0) []
    = Normal (map Z.of_nat indices) /\
    StronglySorted lt indices /\
    forall k, In k indices <->
              k + length cy <= length paragraph /\
              substring paragraph k (k + length cy) = cy.
Proof.
  intros Hne. exists (Spec.occurrences paragraph cy). split; [|split].
  - change 0%Z with (Z.of_nat 0). rewrite indexOf_occurrences by (assumption || lia).
    apply (collect_indices_spec paragraph cy Hne (length paragraph + 2 + extra) 0 []);
      lia.
  - apply filter_seq_sorted.
  - intros k. unfold Spec.occurrences. rewrite occurrences_from_In.
    unfold substring. replace (k + length cy - k) with (length cy) by lia.
    rewrite starts_with_firstn. split.
    + intros [Hk Hs]. split; [|assumption].
      apply (f_equal (@length _)) in Hs.
      rewrite length_firstn, length_skipn in Hs. lia.
    + intros [Hk Hs]. split; [|assumption].
      destruct cy; [contradiction | simpl in Hk; lia].
Qed.

(** 自言自语 occurs twice in the paragraph. *)
Lemma idiom_loop_collects_every_occurrence_witness :
  exists indices,
    collect_indices (length (js "自言自语自言自语") + 2 + 3) (js "自言自语自言自语")
                    (js "自言自语") (indexOf (js "自言自语自言自语") (js "自言自语") 0) []
    = Normal (map Z.of_nat indices) /\
    StronglySorted lt indices /\
    forall k, In k indices <->
              k + length (js "自言自语") <= length (js "自言自语自言自语") /\
              substring (js "自言自语自言自语") k (k + length (js "自言自语"))
              = js "自言自语".
Proof.
  apply (idiom_loop_collects_every_occurrence (js "自言自语自言自语") (js "自言自语") 3).
  vm_compute. discriminate.
Defined.

(* ================================================================== *)
(** * The process button *)

Lemma trim_not_blank (value : jsstring) : trim value <> [] -> ~ blank (trim value).
Proof.
  unfold trim, trim_end. intros Hne Hblank.
  destruct (trim_start (rev (trim_start value))) as [|x w] eqn:E; [now apply Hne|].
  apply trim_start_head in E. unfold blank in Hblank. rewrite Forall_forall in Hblank.
  assert (Hx : In x (rev (x :: w))) by (rewrite <- in_rev; now left).
  specialize (Hblank x Hx). congruence.
Qed.


(* ================================================================== *)
(** * Rendering and the highlight box *)

Lemma node_induction (P : node -> Prop) :
  (forall data, P (TextNode data)) ->
  (forall tagName classes children,
      Forall P children -> P (Element tagName classes children)) ->
  forall n, P n.
Proof.
  intros Ht He. fix IH 1. intros [data | tagName classes children]; [apply Ht|].
  apply He. induction children as [|child children IHc]; constructor;
    [apply IH | apply IHc].
Qed.

Lemma class_remove_contains (name : jsstring) (classes : list jsstring) :
  class_contains name (class_remove name classes) = false.
Proof.
  unfold class_contains, class_remove.
  induction classes as [|c classes IH]; simpl; [reflexivity|].
  destruct (str_eqb name c) eqn:E; simpl; [exact IH|]. now rewrite E.
Qed.

Lemma list_sum_zero (l : list nat) : Forall (fun k => k = 0) l -> list_sum l = 0.
Proof. induction 1 as [|k l Hk _ IH]; simpl; [reflexivity | lia]. Qed.

Lemma toggle_chengyu_unhighlighted (checked : bool) (n : node) :
  highlighted n = 0 -> toggle_chengyu checked n = n.
Proof.
  induction n as [data | tagName classes children IH] using node_induction;
    [reflexivity|].
  simpl. intros H.
  destruct (class_contains (js "chengyu") classes); [simpl in H; lia|].
  f_equal. simpl in H.
  induction IH as [|child children Hc _ IHl]; simpl in *; [reflexivity|].
  rewrite Hc by lia. rewrite IHl by lia. reflexivity.
Qed.

Lemma toggle_chengyu_off (n : node) : highlighted (toggle_chengyu false n) = 0.
Proof.
  induction n as [data | tagName classes children IH] using node_induction;
    [reflexivity|].
  simpl. replace (class_contains (js "chengyu") _) with false.
  - simpl. apply list_sum_zero. rewrite map_map. apply Forall_map. exact IH.
  - symmetry. destruct (class_contains (js "chengyu") classes) eqn:E;
      [apply class_remove_contains | exact E].
Qed.

Lemma toggle_chengyu_on (n : node) : toggle_chengyu true n = n.
Proof.
  induction n as [data | tagName classes children IH] using node_induction;
    [reflexivity|].
  simpl. f_equal.
  - unfold class_add. now destruct (class_contains (js "chengyu") classes).
  - induction IH as [|child children Hc _ IHl]; simpl; [reflexivity|].
    now rewrite Hc, IHl.
Qed.

(** X15. The highlight box can only take highlighting away.  Checking it
    changes no element of the document; unchecking it leaves no element
    with the class [chengyu]; and once it has been unchecked, no later
    change of the box brings the class back. *)
Theorem highlight_box_only_removes (document : node) (checked : bool) :
  toggle_chengyu true document = document /\
  highlighted (toggle_chengyu false document) = 0 /\
  toggle_chengyu checked (toggle_chengyu false document)
  = toggle_chengyu false document.
Proof.
  split; [apply toggle_chengyu_on|]. split; [apply toggle_chengyu_off|].
  apply toggle_chengyu_unhighlighted, toggle_chengyu_off.
Qed.

Lemma annotation_span_plain (className value : jsstring) :
  class_contains (js "chengyu") [className] = false ->
  list_sum (map highlighted (annotation_span className value)) = 0.
Proof.
  intros H. destruct value as [|c v]; [reflexivity|].
  cbn [annotation_span text_content map highlighted list_sum fold_right].
  now rewrite H.
Qed.

Lemma render_segment_highlighted (highlightChecked : bool) (segment : charInfo) :
  highlighted (render_segment highlightChecked segment)
  = if isChengyu segment && highlightChecked then 1 else 0.
Proof.
  unfold render_segment. cbn [highlighted].
  rewrite !map_app, !list_sum_app.
  rewrite (annotation_span_plain (js "pinyin")) by reflexivity.
  rewrite (annotation_span_plain (js "translation")) by reflexivity.
  replace (list_sum (map highlighted (text_content (text segment)))) with 0
    by now destruct (text segment).
  now destruct (isChengyu segment && highlightChecked).
Qed.

Lemma render_paragraph_highlighted (highlightChecked : bool) (paragraph : paragraphInfo) :
  highlighted (render_paragraph highlightChecked paragraph)
  = if highlightChecked then length (filter isChengyu (segments paragraph)) else 0.
Proof.
  unfold render_paragraph. cbn [highlighted].
  replace (class_contains (js "chengyu") [js "paragraph"]) with false by reflexivity.
  rewrite map_map, (map_ext _ _ (render_segment_highlighted highlightChecked)).
  cbn [Nat.add].
  induction (segments paragraph) as [|s segs IH]; simpl.
  - now destruct highlightChecked.
  - rewrite IH. destruct highlightChecked, (isChengyu s); simpl; lia.
Qed.

(** X16. Whether idioms are highlighted is settled when the text is
    rendered.  Rendered with the box checked, each paragraph has as many
    highlighted elements as it has segments with [isChengyu]; rendered
    with the box unchecked it has none, and no later change of the box
    alters the rendered paragraph. *)
Theorem rendering_settles_the_highlight (data : processed) (checked : bool) :
  map highlighted (renderProcessedText true data)
  = map (fun p => length (filter isChengyu (segments p))) (paragraphs data) /\
  Forall (fun n => highlighted n = 0 /\ toggle_chengyu checked n = n)
         (renderProcessedText false data).
Proof.
  unfold renderProcessedText. split.
  - rewrite map_map. apply map_ext. intros p.
    now rewrite render_paragraph_highlighted.
  - apply Forall_map, Forall_forall. intros p _.
    assert (H : highlighted (render_paragraph false p) = 0)
      by now rewrite render_paragraph_highlighted.
    split; [exact H | now apply toggle_chengyu_unhighlighted].
Qed.

(* ================================================================== *)
(** * The client script with the [pinyin] library *)

Lemma concat_split_units (s : jsstring) : concat (Client.split_units s) = s.
Proof.
  unfold Client.split_units. induction s as [|c s IH]; simpl; [reflexivity|].
  now rewrite IH.
Qed.

Lemma map_indexed_texts (g : nat -> option jsstring) (l : list jsstring) (k : nat) :
  map Client.segment_text
      (Client.map_indexed
         (fun char index => {| Client.segment_text := char;
                               Client.segment_pinyin := g index |}) k l)
  = l.
Proof.
  revert k; induction l as [|x l IH]; intros k; simpl; [reflexivity|].
  now rewrite IH.
Qed.

Lemma map_indexed_pinyin (g : nat -> option jsstring) (l : list jsstring) (k : nat) :
  map Client.segment_pinyin
      (Client.map_indexed
         (fun char index => {| Client.segment_text := char;
                               Client.segment_pinyin := g index |}) k l)
  = map g (seq k (length l)).
Proof.
  revert k; induction l as [|x l IH]; intros k; simpl; [reflexivity|].
  now rewrite IH.
Qed.

Lemma array_at_constant {A : Type} (v : A) (l : list jsstring) (start len : nat) :
  start + len <= length l ->
  map (Client.array_at (map (fun _ => Some v) l)) (seq start len)
  = map (fun _ => Some v) (seq start len).
Proof.
  intros H. apply map_ext_in. intros i Hi. apply in_seq in Hi.
  unfold Client.array_at. rewrite nth_error_map.
  destruct (nth_error l i) eqn:E; [reflexivity|].
  apply nth_error_None in E. lia.
Qed.

(** X17. Whenever the call of the [pinyin] library returns or throws,
    [processTextWithPinyin] returns, with one segment per code unit of
    the paragraph in order, so that the texts spell the paragraph.  The
    pinyin of the segment at index [i] is the first string of the
    library's entry [i], and [undefined] when that entry is missing or
    empty; when the library throws, every segment of the paragraph gets
    the pinyin [error]. *)
Theorem processTextWithPinyin_returns
        (pinyin_library : jsstring -> bool -> completion (list (list jsstring)))
        (paragraph : jsstring) :
  pinyin_library paragraph false <> Diverge ->
  exists segs,
    Client.processTextWithPinyin pinyin_library paragraph = Normal segs /\
    map Client.segment_text segs = Client.split_units paragraph /\
    concat (map Client.segment_text segs) = paragraph /\
    map Client.segment_pinyin segs
    = match pinyin_library paragraph false with
      | Normal pinyinResult =>
        map (fun i => match nth_error pinyinResult i with
                      | Some pronunciation => hd_error pronunciation
                      | None => None
                      end)
            (seq 0 (length paragraph))
      | _ => map (fun _ => Some (js "error")) (seq 0 (length paragraph))
      end.
Proof.
  intros Hret. unfold Client.processTextWithPinyin, Client.getPinyinArray.
  destruct (pinyin_library paragraph false) as [pinyinResult | e |];
    [| |contradiction]; simpl.
  - eexists. split; [reflexivity|].
    rewrite map_indexed_texts, map_indexed_pinyin, concat_split_units.
    repeat split. unfold Client.split_units. rewrite length_map.
    apply map_ext. intros i. unfold Client.array_at. rewrite nth_error_map.
    now destruct (nth_error pinyinResult i).
  - eexists. split; [reflexivity|].
    rewrite map_indexed_texts, map_indexed_pinyin, concat_split_units.
    repeat split.
    rewrite (array_at_constant (js "error")) by lia.
    unfold Client.split_units. now rewrite length_map.
Qed.

(** A library that throws on every text. *)
Lemma processTextWithPinyin_returns_witness :
  exists segs,
    Client.processTextWithPinyin (fun _ _ => Throw (js "no dictionary")) (js "你好")
    = Normal segs /\
    map Client.segment_text segs = Client.split_units (js "你好") /\
    concat (map Client.segment_text segs) = js "你好" /\
    map Client.segment_pinyin segs
    = map (fun _ => Some (js "error")) (seq 0 (length (js "你好"))).
Proof.
  apply (processTextWithPinyin_returns (fun _ _ => Throw (js "no dictionary")) (js "你好")).
  discriminate.
Defined.

(* ================================================================== *)
(** * Counting the idiom segments of the mock *)

Lemma filter_length_perm {A : Type} (f : A -> bool) (l l' : list A) :
  Permutation l l' -> length (filter f l) = length (filter f l').
Proof.
  induction 1 as [|x l l' _ IH|x y l|l l' l'' _ IH1 _ IH2]; simpl.
  - reflexivity.
  - destruct (f x); simpl; congruence.
  - destruct (f x), (f y); reflexivity.
  - congruence.
Qed.

Lemma filter_flat_map_length {A B : Type} (f : B -> bool) (g : A -> list B)
      (count : nat) (l : list A) :
  (forall x, In x l -> length (filter f (g x)) = count) ->
  length (filter f (flat_map g l)) = count * length l.
Proof.
  induction l as [|x l IH]; intros H; simpl; [lia|].
  rewrite filter_app, length_app, (H x) by now left.
  rewrite IH by (intros y Hy; apply H; now right). lia.
Qed.

Lemma no_match_below (m start len : nat) :
  start + len <= m -> filter (fun i => i =? m) (seq start len) = [].
Proof.
  revert start; induction len as [|len IH]; intros start H; simpl; [reflexivity|].
  replace (start =? m) with false by (symmetry; apply Nat.eqb_neq; lia).
  apply IH. lia.
Qed.

Lemma last_index_once (len : nat) :
  0 < len -> length (filter (fun i => i =? len - 1) (seq 0 len)) = 1.
Proof.
  intros H. destruct len as [|m]; [lia|].
  replace (S m - 1) with m by lia.
  rewrite seq_S, filter_app, no_match_below by lia.
  simpl. now rewrite Nat.eqb_refl.
Qed.

Lemma span_segments_counts (gp gt : jsstring -> jsstring) (paragraph : jsstring)
      (sp : IdiomSpan) :
  idiom sp <> [] ->
  length (filter isChengyu (span_segments gp gt paragraph sp)) = length (idiom sp) /\
  length (filter has_idiom (span_segments gp gt paragraph sp)) = 1.
Proof.
  intros Hne. unfold span_segments. split.
  - transitivity (length (seq 0 (length (idiom sp)))); [|apply length_seq].
    generalize (seq 0 (length (idiom sp))). intros l.
    induction l as [|i l IH]; simpl; [reflexivity | now rewrite IH].
  - rewrite <- (last_index_once (length (idiom sp)))
      by (destruct (idiom sp); [contradiction | simpl; lia]).
    generalize (seq 0 (length (idiom sp))). intros l.
    induction l as [|i l IH]; simpl; [reflexivity|].
    unfold has_idiom at 1. simpl.
    destruct (i =? length (idiom sp) - 1); simpl; now rewrite IH.
Qed.

Lemma plain_segments_counts (gp gt : jsstring -> jsstring) (paragraph : jsstring)
      (l : list nat) :
  filter isChengyu (map (plainInfo gp gt paragraph) l) = [] /\
  filter has_idiom (map (plainInfo gp gt paragraph) l) = [].
Proof. induction l as [|i l [IH1 IH2]]; simpl; split; auto. Qed.

(** X18. Per paragraph, the mock returns four idiom-marked segments and one
    completed idiom for each occurrence of a listed idiom, and no other
    marked segment. *)
Theorem mock_marks_four_segments_per_occurrence (raw : jsstring) :
  exists data,
    mockProcessTextResponse raw = Normal data /\
    Forall (fun p =>
              exists spans,
                marked_spans sampleChengyu (paragraph_text p) [] = Normal spans /\
                length (filter isChengyu (segments p)) = 4 * length spans /\
                length (filter has_idiom (segments p)) = length spans)
           (paragraphs data).
Proof.
  eexists. split; [apply mockProcessTextResponse_returns|]. cbn [paragraphs].
  apply Forall_map, Forall_forall. intros p _.
  cbn [paragraph_text segments annotated_paragraph].
  exists (Spec.candidates p sampleChengyu). split.
  { apply (marked_spans_candidates sampleChengyu p []), sampleChengyu_not_empty. }
  assert (Hcand : forall sp, In sp (Spec.candidates p sampleChengyu) ->
                             idiom sp <> [] /\ length (idiom sp) = 4).
  { intros sp Hsp. apply candidates_In in Hsp as (Hin & _).
    simpl in Hin.
    repeat (destruct Hin as [<- | Hin]; [split; [discriminate | reflexivity]|]).
    contradiction. }
  pose proof (array_sort_perm (compare_segments p)
                (unsorted_segments getMockPinyin getMockTranslation sampleChengyu p))
    as Hperm.
  rewrite (filter_length_perm isChengyu _ _ Hperm),
          (filter_length_perm has_idiom _ _ Hperm).
  unfold unsorted_segments, idiom_segments.
  set (cands := Spec.candidates p sampleChengyu) in *. clearbody cands.
  rewrite !filter_app, !length_app.
  destruct (plain_segments_counts getMockPinyin getMockTranslation p
              (plain_positions p
                 (flat_map (span_segments getMockPinyin getMockTranslation p) cands)))
    as [-> ->].
  cbn [length]. rewrite !Nat.add_0_r.
  split; [apply (filter_flat_map_length isChengyu _ 4)
         | rewrite <- (Nat.mul_1_l (length cands));
           apply (filter_flat_map_length has_idiom _ 1)];
    intros sp Hsp; destruct (Hcand sp Hsp) as [Hne Hlen];
    destruct (span_segments_counts getMockPinyin getMockTranslation p sp Hne)
      as [H4 H1]; congruence.
Qed.
